(** * The redis masking processor (processor/redismasking)

    A shallow embedding of [processor.go]: the value synthesizer
    [generateMaskedValue], the cache-backed token store [getMaskedValue],
    the body masker [maskPatternsInString] and the record traversal
    [maskLogRecord] / [processLogs], together with models of the library
    functions they call (crypto/sha256, encoding/hex, fmt, regexp, the
    go-redis client and the pdata values). *)

From Stdlib Require Import ZArith List Lia Bool Ascii String.
From Stdlib Require Import Numbers.DecimalString.
Import ListNotations.

Open Scope Z_scope.

(** ** crypto/sha256

    [Sum256] follows FIPS 180-4: 32-bit words are [Z] with the wrap-around
    written out, bytes are [Z] in [0, 256). *)
Module Sha256.

Definition wrap32 (x : Z) : Z := x mod 2 ^ 32.

Definition add32 (x y : Z) : Z := wrap32 (x + y).

Definition rotr (n x : Z) : Z :=
  Z.lor (Z.shiftr x n) (wrap32 (Z.shiftl x (32 - n))).

Definition not32 (x : Z) : Z := 2 ^ 32 - 1 - x.

Definition Ch (x y z : Z) : Z := Z.lxor (Z.land x y) (Z.land (not32 x) z).

Definition Maj (x y z : Z) : Z :=
  Z.lxor (Z.lxor (Z.land x y) (Z.land x z)) (Z.land y z).

Definition bigSigma0 (x : Z) : Z :=
  Z.lxor (Z.lxor (rotr 2 x) (rotr 13 x)) (rotr 22 x).

Definition bigSigma1 (x : Z) : Z :=
  Z.lxor (Z.lxor (rotr 6 x) (rotr 11 x)) (rotr 25 x).

Definition smallSigma0 (x : Z) : Z :=
  Z.lxor (Z.lxor (rotr 7 x) (rotr 18 x)) (Z.shiftr x 3).

Definition smallSigma1 (x : Z) : Z :=
  Z.lxor (Z.lxor (rotr 17 x) (rotr 19 x)) (Z.shiftr x 10).

(** The first [n] primes are among 2, ..., 311. *)
Definition is_prime (n : nat) : bool :=
  forallb (fun d => negb (Nat.eqb (n mod d) 0)) (seq 2 (n - 2)).

Definition primes : list Z := map Z.of_nat (filter is_prime (seq 2 310)).

(** The largest [r] below [2 ^ bits] with [r ^ 3 <= n], bit by bit. *)
Fixpoint cube_root (bits : nat) (n r : Z) : Z :=
  match bits with
  | O => r
  | S b =>
      let r' := r + 2 ^ Z.of_nat b in
      cube_root b n (if r' * r' * r' <=? n then r' else r)
  end.

(** The round constants: the first 32 bits of the fractional parts of the
    cube roots of the first 64 primes. *)
Definition K : list Z :=
  Eval vm_compute in
    map (fun p => wrap32 (cube_root 36 (p * 2 ^ 96) 0)) (firstn 64 primes).

(** The eight working words of the hash state. *)
Record state : Type := mkState {
  h0 : Z; h1 : Z; h2 : Z; h3 : Z; h4 : Z; h5 : Z; h6 : Z; h7 : Z
}.

(** The first 32 bits of the fractional part of the square root of [p]. *)
Definition sqrt_frac (p : Z) : Z := wrap32 (Z.sqrt (p * 2 ^ 64)).

(** The initial hash value, from the first eight primes. *)
Definition init : state :=
  Eval vm_compute in
    mkState (sqrt_frac 2) (sqrt_frac 3) (sqrt_frac 5) (sqrt_frac 7)
            (sqrt_frac 11) (sqrt_frac 13) (sqrt_frac 17) (sqrt_frac 19).

(** Big-endian bytes of a [w]-byte quantity. *)
Fixpoint be_bytes (w : nat) (x : Z) : list Z :=
  match w with
  | O => []
  | S w' => (Z.shiftr x (8 * Z.of_nat w')) mod 256 :: be_bytes w' x
  end.

Definition pad (msg : list Z) : list Z :=
  let len := Z.of_nat (List.length msg) in
  let zeros := Z.to_nat ((55 - len) mod 64) in
  msg ++ [0x80] ++ repeat 0 zeros ++ be_bytes 8 (8 * len).

Fixpoint be_words (n : nat) (bs : list Z) : list Z :=
  match n with
  | O => []
  | S n' =>
      match bs with
      | a :: b :: c :: d :: rest =>
          (Z.shiftl a 24 + Z.shiftl b 16 + Z.shiftl c 8 + d) :: be_words n' rest
      | _ => []
      end
  end.

(** Message schedule: [w] holds W[0..t-1]; extend it by [n] words. *)
Fixpoint schedule (n : nat) (w : list Z) : list Z :=
  match n with
  | O => w
  | S n' =>
      let t := List.length w in
      let at_ (i : nat) := nth (t - i) w 0 in
      let wt := add32 (add32 (smallSigma1 (at_ 2%nat)) (at_ 7%nat))
                      (add32 (smallSigma0 (at_ 15%nat)) (at_ 16%nat)) in
      schedule n' (w ++ [wt])
  end.

Definition round (s : state) (kw : Z * Z) : state :=
  let '(k, w) := kw in
  let t1 := add32 (add32 (add32 (h7 s) (bigSigma1 (h4 s)))
                         (add32 (Ch (h4 s) (h5 s) (h6 s)) k)) w in
  let t2 := add32 (bigSigma0 (h0 s)) (Maj (h0 s) (h1 s) (h2 s)) in
  mkState (add32 t1 t2) (h0 s) (h1 s) (h2 s)
          (add32 (h3 s) t1) (h4 s) (h5 s) (h6 s).

Definition compress (s : state) (block : list Z) : state :=
  let w := schedule 48 (be_words 16 block) in
  let r := fold_left round (combine K w) s in
  mkState (add32 (h0 s) (h0 r)) (add32 (h1 s) (h1 r))
          (add32 (h2 s) (h2 r)) (add32 (h3 s) (h3 r))
          (add32 (h4 s) (h4 r)) (add32 (h5 s) (h5 r))
          (add32 (h6 s) (h6 r)) (add32 (h7 s) (h7 r)).

Fixpoint blocks (n : nat) (s : state) (bs : list Z) : state :=
  match n with
  | O => s
  | S n' => blocks n' (compress s (firstn 64 bs)) (skipn 64 bs)
  end.

Definition digest (s : state) : list Z :=
  be_bytes 4 (h0 s) ++ be_bytes 4 (h1 s) ++ be_bytes 4 (h2 s) ++
  be_bytes 4 (h3 s) ++ be_bytes 4 (h4 s) ++ be_bytes 4 (h5 s) ++
  be_bytes 4 (h6 s) ++ be_bytes 4 (h7 s).

(** [sha256.Sum256(data)]: the 32-byte checksum of [data]. *)
Definition Sum256 (data : list Z) : list Z :=
  let p := pad data in
  digest (blocks (List.length p / 64) init p).

End Sha256.

(** ** Strings: Go strings are byte sequences *)

Open Scope string_scope.

Definition byte_of_ascii (a : ascii) : Z := Z.of_N (N_of_ascii a).

(** [[]byte(s)] *)
Fixpoint bytes_of_string (s : string) : list Z :=
  match s with
  | EmptyString => []
  | String a s' => byte_of_ascii a :: bytes_of_string s'
  end.

Module Hex.

Definition hextable : string := "0123456789abcdef".

Definition digit (n : Z) : ascii :=
  match get (Z.to_nat n) hextable with
  | Some c => c
  | None => "0"%char
  end.

(** [hex.EncodeToString(src)]: two lower-case digits per byte. *)
Fixpoint EncodeToString (src : list Z) : string :=
  match src with
  | [] => ""
  | b :: rest =>
      String (digit (Z.shiftr b 4)) (String (digit (Z.land b 15)) (EncodeToString rest))
  end.

End Hex.

(** The verb [%d] of [fmt.Sprintf] at a non-negative integer. *)
Definition fmt_d (n : Z) : string := NilZero.string_of_uint (N.to_uint (Z.to_N n)).


(** ** regexp: the two uses the processor makes of it

    A compiled expression is represented by what [FindAllString(s, -1)]
    returns for it.  [regexp.MustCompile(regexp.QuoteMeta(lit))] matches the
    text [lit] literally and has no sub-expressions; its [ReplaceAllString]
    is modelled in full, template expansion included.  Text is taken to be
    ASCII: a rune is a byte. *)
Module Regexp.

Definition Regexp : Type := string -> list string.

Definition is_digit (c : ascii) : bool :=
  let n := byte_of_ascii c in ((48 <=? n) && (n <=? 57))%Z.

Definition is_letter (c : ascii) : bool :=
  let n := byte_of_ascii c in
  (((65 <=? n) && (n <=? 90)) || ((97 <=? n) && (n <=? 122)))%Z.

(** The loop of [extract]: letters, digits and underscores. *)
Fixpoint name_len (str : string) : nat :=
  match str with
  | EmptyString => O
  | String c rest =>
      if is_letter c || is_digit c || Ascii.eqb c "_" then S (name_len rest)
      else O
  end.

(** "Parse number" of [extract]: -1 as soon as a character is not a digit
    or the number has reached 1e8. *)
Fixpoint parse_num (name : string) (num : Z) : Z :=
  match name with
  | EmptyString => num
  | String c rest =>
      if negb (is_digit c) || (100000000 <=? num)%Z then (-1)%Z
      else parse_num rest (num * 10 + byte_of_ascii c - 48)%Z
  end.

Fixpoint drop (n : nat) (s : string) : string :=
  match n, s with
  | O, _ => s
  | S _, EmptyString => EmptyString
  | S n', String _ rest => drop n' rest
  end.

(** [extract(str)]: the name from a leading "name" or "{name}"; [None] for
    [ok = false]. *)
Definition extract (str : string) : option (string * Z * string) :=
  match str with
  | EmptyString => None
  | String c0 tail =>
      let brace := Ascii.eqb c0 "{" in
      let str1 := if brace then tail else str in
      let i := name_len str1 in
      match i with
      | O => None
      | S _ =>
          let name := substring 0 i str1 in
          let after_name :=
            if brace then
              match get i str1 with
              | Some c => if Ascii.eqb c "}" then Some (S i) else None
              | None => None
              end
            else Some i in
          match after_name with
          | None => None
          | Some i' =>
              let num := parse_num name 0 in
              let num :=
                match name with
                | String c (String _ _) => if Ascii.eqb c "0" then (-1)%Z else num
                | _ => num
                end in
              Some (name, num, drop i' str1)
          end
      end
  end.

(** [strings.Cut(s, "$")] *)
Fixpoint cut_dollar (s : string) : option (string * string) :=
  match s with
  | EmptyString => None
  | String c rest =>
      if Ascii.eqb c "$" then Some (EmptyString, rest)
      else match cut_dollar rest with
           | Some (before, after) => Some (String c before, after)
           | None => None
           end
  end.

(** [re.expand] for an expression without sub-expressions: only group 0,
    the whole match [matched], is ever present. *)
Fixpoint expand_fuel (fuel : nat) (template matched : string) : string :=
  match fuel with
  | O => template
  | S fuel' =>
      match cut_dollar template with
      | None => template
      | Some (before, after) =>
          let reference :=
            match extract after with
            | None => String "$" (expand_fuel fuel' after matched)
            | Some (_, num, rest) =>
                (if (num =? 0)%Z then matched else EmptyString)
                ++ expand_fuel fuel' rest matched
            end in
          before ++
          match after with
          | String c after' =>
              if Ascii.eqb c "$" then String "$" (expand_fuel fuel' after' matched)
              else reference
          | EmptyString => reference
          end
      end
  end.

Definition expand (template matched : string) : string :=
  expand_fuel (S (String.length template)) template matched.

(** Matches of a non-empty literal, left to right and not overlapping;
    [skip] counts the bytes of [src] still inside the last match. *)
Fixpoint replace_lit (lit repl : string) (skip : nat) (src : string) : string :=
  match src with
  | EmptyString => EmptyString
  | String c rest =>
      match skip with
      | S k => replace_lit lit repl k rest
      | O =>
          if prefix lit src then repl ++ replace_lit lit repl (String.length lit - 1) rest
          else String c (replace_lit lit repl O rest)
      end
  end.

(** The empty expression matches once at every position. *)
Fixpoint replace_empty (repl : string) (src : string) : string :=
  match src with
  | EmptyString => repl
  | String c rest => repl ++ String c (replace_empty repl rest)
  end.

(** [regexp.MustCompile(regexp.QuoteMeta(lit)).ReplaceAllString(src, repl)] *)
Definition ReplaceAllString_QuoteMeta (lit src repl : string) : string :=
  match lit with
  | EmptyString => replace_empty (expand repl lit) src
  | String _ _ => replace_lit lit (expand repl lit) O src
  end.

(** [strings.ReplaceAll(src, old, new)]: every occurrence of the text [old]
    replaced by the text [new]. *)
Definition replace_all_literal (old new src : string) : string :=
  match old with
  | EmptyString => replace_empty new src
  | String _ _ => replace_lit old new O src
  end.

Fixpoint find_lit (lit : string) (skip : nat) (src : string) : list string :=
  match src with
  | EmptyString => []
  | String c rest =>
      match skip with
      | S k => find_lit lit k rest
      | O =>
          if prefix lit src then lit :: find_lit lit (String.length lit - 1) rest
          else find_lit lit O rest
      end
  end.

(** [regexp.MustCompile(regexp.QuoteMeta(lit)).FindAllString(src, -1)] for a
    non-empty [lit]. *)
Definition literal (lit : string) : Regexp := fun src => find_lit lit O src.

End Regexp.

(** ** Errors

    A Go [error] value: a reply of the Redis protocol layer
    ([proto.RedisError]), a failure of the connection (dial, read, write,
    deadline), or an error wrapped by [fmt.Errorf(prefix + "%w", err)]. *)
Inductive error : Type :=
| RedisError (msg : string)
| TransportError (msg : string)
| Errorf_w (prefix : string) (err : error).

(** [redis.Nil], the distinguished "not found" reply. *)
Definition redis_Nil : error := RedisError "redis: nil".

Definition error_eq_dec (e1 e2 : error) : {e1 = e2} + {e1 <> e2}.
Proof. decide equality; apply string_dec. Defined.

(** ** The go-redis client *)

Inductive Cmd : Type :=
| Get (key : string)
| Set_ (key value : string) (expiration : Z).

(** What [.Result()] of a command yields: a value and an error ([None] is
    [nil]). *)
Record Reply : Type := mkReply { reply_val : string; reply_err : option error }.

(** The connection and the server behind it: the reply to a command, given
    the commands sent before it. *)
Definition Client : Type := list Cmd -> Cmd -> Reply.

(** ** Configuration (config.go) *)

Record PatternConfig : Type := mkPatternConfig {
  Name : string;
  Regex : string;
  MaskedPrefix : string
}.

Record Config : Type := mkConfig {
  RedisAddr : string;
  RedisPassword : string;
  RedisDB : Z;
  TokenTTL : Z;
  FieldsToMask : list string;
  Patterns : list PatternConfig
}.

(** ** The processor *)

Record compiledPattern : Type := mkCompiledPattern {
  name : string;
  regex : Regexp.Regexp;
  maskedPrefix : string
}.

(** [redisClient] is the connection opened by [start]; what [logger]
    writes goes to the trace (see Effects below). *)
Record maskingProcessor : Type := mkMaskingProcessor {
  config : Config;
  redisClient : Client;
  compiledPatterns : list compiledPattern
}.

(** ** pdata values and log records

    A [pcommon.Value] is represented by its type and by the text
    [AsString] gives for it; for a value of type Str that text is the string
    itself. *)
Inductive ValueType : Type :=
| ValueTypeEmpty | ValueTypeStr | ValueTypeInt | ValueTypeDouble
| ValueTypeBool | ValueTypeMap | ValueTypeSlice | ValueTypeBytes.

Definition ValueType_eq_dec (a b : ValueType) : {a = b} + {a <> b}.
Proof. decide equality. Defined.

Record Value : Type := mkValue { Type_ : ValueType; AsString : string }.

Definition Str (v : Value) : string := AsString v.

Definition ValueStr (s : string) : Value := mkValue ValueTypeStr s.

(** A [plog.LogRecord]: the attribute map in its iteration order, and the
    body. *)
Record LogRecord : Type := mkLogRecord {
  Attributes : list (string * Value);
  Body : Value
}.

Definition ScopeLogs : Type := list LogRecord.
Definition ResourceLogs : Type := list ScopeLogs.
Definition Logs : Type := list ResourceLogs.

(** ** Effects

    What a run does to the outside: commands sent to Redis, lines written
    by the logger, and [SetStr] calls on the record being masked. *)
Inductive Field : Type :=
| zap_String (key val : string)
| zap_Error (err : error).

Inductive Target : Type :=
| AttributeValue (key : string)
| BodyValue.

Inductive Event : Type :=
| EvRedis (c : Cmd)
| EvLogError (msg : string) (fields : list Field)
| EvSetStr (target : Target) (val : string).

Definition Trace : Type := list Event.

Fixpoint commands (tr : Trace) : list Cmd :=
  match tr with
  | [] => []
  | EvRedis c :: tr' => c :: commands tr'
  | _ :: tr' => commands tr'
  end.

(** A computation that extends the trace. *)
Definition M (A : Type) : Type := Trace -> A * Trace.

Definition ret {A : Type} (a : A) : M A := fun tr => (a, tr).

Definition bind {A B : Type} (m : M A) (k : A -> M B) : M B :=
  fun tr => let (a, tr') := m tr in k a tr'.

Notation "x <- m ;; k" := (bind m (fun x => k))
  (at level 61, m at next level, right associativity).
Notation "m ;; k" := (bind m (fun _ => k))
  (at level 61, right associativity).

Definition emit (e : Event) : M unit := fun tr => (tt, (tr ++ [e])%list).

Definition logger_Error (msg : string) (fields : list Field) : M unit :=
  emit (EvLogError msg fields).

(** Send one command on the processor's connection. *)
Definition redis_do (mp : maskingProcessor) (c : Cmd) : M Reply :=
  fun tr => (redisClient mp (commands tr) c, (tr ++ [EvRedis c])%list).

Fixpoint mapM {A B : Type} (f : A -> M B) (l : list A) : M (list B) :=
  match l with
  | [] => ret []
  | a :: l' => b <- f a ;; bs <- mapM f l' ;; ret (b :: bs)
  end.

(** [int64] wrap-around of [time.Duration] arithmetic. *)
Definition wrap64 (x : Z) : Z := ((x + 2 ^ 63) mod 2 ^ 64 - 2 ^ 63)%Z.

Definition time_Second : Z := 1000000000%Z.

(** ** generateMaskedValue *)

(** The loop over [mp.compiledPatterns]: the prefix of the first pattern
    named [category], the empty string when there is none. *)
Fixpoint pattern_prefix (patterns : list compiledPattern) (category : string) : string :=
  match patterns with
  | [] => ""
  | pattern :: rest =>
      if (name pattern =? category)%string then maskedPrefix pattern
      else pattern_prefix rest category
  end.

Definition generateMaskedValue (mp : maskingProcessor)
    (originalValue category : string) : string :=
  let hash := Sha256.Sum256 (bytes_of_string (originalValue ++ category)) in
  let hashStr := Hex.EncodeToString hash in
  if (category =? "ipv4")%string then
    "10." ++ fmt_d (nth 0 hash 0 mod 256)
      ++ "." ++ fmt_d (nth 1 hash 0 mod 256)
      ++ "." ++ fmt_d (nth 2 hash 0 mod 256)
  else if (category =? "hostname")%string then
    "host-" ++ substring 0 8 hashStr ++ ".masked.local"
  else
    let prefix := pattern_prefix (compiledPatterns mp) category in
    let prefix :=
      if (10 <? String.length category)%nat
         && (substring 0 10 category =? "attribute_")%string
      then substring 10 (String.length category - 10) category ++ "-"
      else prefix in
    prefix ++ substring 0 12 hashStr.

(** ** getMaskedValue *)

(** [fmt.Sprintf("mask:%s:%s", category, originalValue)] *)
Definition forward_key (category originalValue : string) : string :=
  "mask:" ++ category ++ ":" ++ originalValue.

(** [fmt.Sprintf("unmask:%s:%s", category, maskedValue)] *)
Definition reverse_key (category maskedValue : string) : string :=
  "unmask:" ++ category ++ ":" ++ maskedValue.

(** The expiration handed to both writes. *)
Definition token_ttl (cfg : Config) : Z :=
  if (0 <? TokenTTL cfg)%Z then wrap64 (TokenTTL cfg * time_Second) else 0%Z.

Definition getMaskedValue (mp : maskingProcessor)
    (originalValue category : string) : M (string * option error) :=
  let redisKey := forward_key category originalValue in
  r <- redis_do mp (Get redisKey) ;;
  match reply_err r with
  | None => ret (reply_val r, None)
  | Some err =>
      if error_eq_dec err redis_Nil then
        let maskedValue := generateMaskedValue mp originalValue category in
        let ttl := token_ttl (config mp) in
        r1 <- redis_do mp (Set_ redisKey maskedValue ttl) ;;
        match reply_err r1 with
        | Some err1 =>
            logger_Error "Failed to store masked value in Redis" [zap_Error err1]
        | None => ret tt
        end ;;
        let reverseKey := reverse_key category maskedValue in
        redis_do mp (Set_ reverseKey originalValue ttl) ;;
        ret (maskedValue, None)
      else ret ("", Some (Errorf_w "redis get error: " err))
  end.

(** ** maskPatternsInString *)

(** The inner loop, over the matches of one pattern. *)
Fixpoint maskMatches (mp : maskingProcessor) (pattern : compiledPattern)
    (matches : list string) (result : string) : M string :=
  match matches with
  | [] => ret result
  | match_ :: rest =>
      r <- getMaskedValue mp match_ (name pattern) ;;
      match snd r with
      | Some err =>
          logger_Error "Failed to mask value"
            [zap_String "pattern" (name pattern); zap_String "value" match_;
             zap_Error err] ;;
          maskMatches mp pattern rest result
      | None =>
          maskMatches mp pattern rest
            (Regexp.ReplaceAllString_QuoteMeta match_ result (fst r))
      end
  end.

(** The outer loop, over the patterns. *)
Fixpoint maskPatterns (mp : maskingProcessor) (patterns : list compiledPattern)
    (result : string) : M string :=
  match patterns with
  | [] => ret result
  | pattern :: rest =>
      result' <- maskMatches mp pattern (regex pattern result) result ;;
      maskPatterns mp rest result'
  end.

Definition maskPatternsInString (mp : maskingProcessor) (text : string) : M string :=
  maskPatterns mp (compiledPatterns mp) text.

(** ** maskLogRecord *)

(** The loop over [FieldsToMask] for the attribute [(k, v)]. *)
Fixpoint maskAttribute (mp : maskingProcessor) (k : string)
    (fields : list string) (v : Value) : M Value :=
  match fields with
  | [] => ret v
  | fieldToMask :: rest =>
      if (k =? fieldToMask)%string then
        r <- getMaskedValue mp (AsString v) ("attribute_" ++ k) ;;
        match snd r with
        | Some err =>
            logger_Error "Failed to mask attribute" [zap_String "key" k; zap_Error err] ;;
            maskAttribute mp k rest v
        | None =>
            emit (EvSetStr (AttributeValue k) (fst r)) ;;
            maskAttribute mp k rest (ValueStr (fst r))
        end
      else maskAttribute mp k rest v
  end.

(** [lr.Attributes().Range(...)] *)
Definition maskAttributes (mp : maskingProcessor)
    (attrs : list (string * Value)) : M (list (string * Value)) :=
  mapM (fun kv => v' <- maskAttribute mp (fst kv) (FieldsToMask (config mp)) (snd kv) ;;
                  ret (fst kv, v')) attrs.

Definition maskBody (mp : maskingProcessor) (body : Value) : M Value :=
  if ValueType_eq_dec (Type_ body) ValueTypeStr then
    let originalBody := Str body in
    maskedBody <- maskPatternsInString mp originalBody ;;
    if string_dec maskedBody originalBody then ret body
    else emit (EvSetStr BodyValue maskedBody) ;; ret (ValueStr maskedBody)
  else ret body.

Definition maskLogRecord (mp : maskingProcessor) (lr : LogRecord)
    : M (LogRecord * option error) :=
  attrs <- maskAttributes mp (Attributes lr) ;;
  body <- maskBody mp (Body lr) ;;
  ret (mkLogRecord attrs body, None).

(** ** processLogs *)

Definition processLogRecord (mp : maskingProcessor) (lr : LogRecord) : M LogRecord :=
  r <- maskLogRecord mp lr ;;
  match snd r with
  | Some err => logger_Error "Failed to mask log record" [zap_Error err] ;; ret (fst r)
  | None => ret (fst r)
  end.

Definition processLogs (mp : maskingProcessor) (ld : Logs) : M (Logs * option error) :=
  ld' <- mapM (mapM (mapM (processLogRecord mp))) ld ;;
  ret (ld', None).

(** ** Servers and processors to run the embedding on *)

(** A store that cannot be reached: every command fails on the connection. *)
Definition client_down : Client :=
  fun _ _ => mkReply "" (Some (TransportError "dial tcp: connection refused")).

(** A store that answers reads with "not found" and refuses every write. *)
Definition client_read_only : Client :=
  fun _ c =>
    match c with
    | Get _ => mkReply "" (Some redis_Nil)
    | Set_ _ _ _ => mkReply "" (Some (TransportError "write tcp: broken pipe"))
    end.

(** The value last written under [key], newest command first. *)
Fixpoint stored (history : list Cmd) (key : string) : option string :=
  match history with
  | [] => None
  | Set_ k v _ :: older => if (k =? key)%string then Some v else stored older key
  | Get _ :: older => stored older key
  end.

(** A working store (entries not yet expired). *)
Definition client_live : Client :=
  fun history c =>
    match c with
    | Get key =>
        match stored (rev history) key with
        | Some v => mkReply v None
        | None => mkReply "" (Some redis_Nil)
        end
    | Set_ _ _ _ => mkReply "OK" None
    end.

(** A working store whose reads of one key time out. *)
Definition client_flaky (bad_key : string) : Client :=
  fun history c =>
    match c with
    | Get key =>
        if (key =? bad_key)%string
        then mkReply "" (Some (TransportError "i/o timeout"))
        else client_live history c
    | Set_ _ _ _ => client_live history c
    end.

Definition sample_config : Config :=
  mkConfig "localhost:6379" "" 0 3600 ["username"; "ip_address"]
    [mkPatternConfig "ipv4" "192\.168\.1\.1" "IP-";
     mkPatternConfig "token" "secret" "TOK-"].

Definition sample_patterns : list compiledPattern :=
  [mkCompiledPattern "ipv4" (Regexp.literal "192.168.1.1") "IP-";
   mkCompiledPattern "token" (Regexp.literal "secret") "TOK-"].

Definition sample_mp (client : Client) : maskingProcessor :=
  mkMaskingProcessor sample_config client sample_patterns.

(** A configuration whose masked prefix starts with a dollar sign. *)
Definition dollar_config : Config :=
  mkConfig "localhost:6379" "" 0 0 []
    [mkPatternConfig "token" "secret" "$MASKED_"].

Definition dollar_mp : maskingProcessor :=
  mkMaskingProcessor dollar_config client_live
    [mkCompiledPattern "token" (Regexp.literal "secret") "$MASKED_"].

(** ** Vocabulary of the statements *)

(** The twelve hex characters every synthesized token ends with. *)
Definition hex12 (originalValue category : string) : string :=
  substring 0 12
    (Hex.EncodeToString (Sha256.Sum256 (bytes_of_string (originalValue ++ category)))).

Definition is_hex_char (c : ascii) : bool :=
  Regexp.is_digit c
  || (let n := byte_of_ascii c in (97 <=? n) && (n <=? 102))%Z.

Fixpoint all_chars (f : ascii -> bool) (s : string) : bool :=
  match s with
  | EmptyString => true
  | String c rest => f c && all_chars f rest
  end.

(** What [generateMaskedValue] reads of the processor: the names and the
    prefixes of the patterns, in order. *)
Definition pattern_table (mp : maskingProcessor) : list (string * string) :=
  map (fun p => (name p, maskedPrefix p)) (compiledPatterns mp).

Definition dotted_quad (a b c d : Z) : string :=
  fmt_d a ++ "." ++ fmt_d b ++ "." ++ fmt_d c ++ "." ++ fmt_d d.

(** The reading "a dotted quad of four digest bytes". *)
Definition four_digest_bytes (out : string) (hash : list Z) : Prop :=
  exists i j k l : nat,
    (i < 32 /\ j < 32 /\ k < 32 /\ l < 32)%nat /\
    out = dotted_quad (nth i hash 0%Z) (nth j hash 0%Z) (nth k hash 0%Z) (nth l hash 0%Z).

(** The text before the first dot. *)
Fixpoint head_octet (s : string) : string :=
  match s with
  | EmptyString => EmptyString
  | String c rest => if Ascii.eqb c "." then EmptyString else String c (head_octet rest)
  end.

Definition no_dot (s : string) : bool :=
  all_chars (fun c => negb (Ascii.eqb c ".")) s.

(** The events a run appends to the trace it starts from. *)
Definition new_events {A : Type} (m : M A) (tr : Trace) : Trace :=
  skipn (List.length tr) (snd (m tr)).

(** Every command fails on the connection. *)
Definition store_unavailable (client : Client) : Prop :=
  forall history c, exists msg, reply_err (client history c) = Some (TransportError msg).

(** Every write fails on the connection. *)
Definition writes_fail (client : Client) : Prop :=
  forall history key value ttl,
    exists msg, reply_err (client history (Set_ key value ttl)) = Some (TransportError msg).

(** The logger line of a failed forward write, if the reply carries an
    error. *)
Definition store_failure_log (r : Reply) : Trace :=
  match reply_err r with
  | Some err => [EvLogError "Failed to store masked value in Redis" [zap_Error err]]
  | None => []
  end.

(** Every run of [m] appends events to the trace, all of them in [P]. *)
Definition extends {A : Type} (P : Event -> Prop) (m : M A) : Prop :=
  forall tr, exists evs, snd (m tr) = (tr ++ evs)%list /\ Forall P evs.

Definition not_body_write (e : Event) : Prop :=
  match e with
  | EvSetStr BodyValue _ => False
  | _ => True
  end.

(** Reads of [key] fail, whatever was sent before, with an error other than
    [redis.Nil]. *)
Definition read_fails (client : Client) (key : string) : Prop :=
  forall history, exists err,
    reply_err (client history (Get key)) = Some err /\ err <> redis_Nil.

(** What a failed attempt on the attribute [k] leaves in the trace: the
    read, and the logger line. *)
Definition failed_read_event (key k : string) (e : Event) : Prop :=
  e = EvRedis (Get key)
  \/ exists err, e = EvLogError "Failed to mask attribute"
                       [zap_String "key" k; zap_Error (Errorf_w "redis get error: " err)].

(** The attribute keys of every record of a batch. *)
Definition keys_of_logs (ld : Logs) : list (list (list (list string))) :=
  map (map (map (fun lr => map fst (Attributes lr)))) ld.

Definition no_dollar (s : string) : bool :=
  all_chars (fun c => negb (Ascii.eqb c "$")) s.

(** Every value the store returns on a read is free of dollar signs. *)
Definition dollar_free_store (client : Client) : Prop :=
  forall history key, no_dollar (reply_val (client history (Get key))) = true.

(** No pattern name and no masked prefix contains a dollar sign. *)
Definition dollar_free_patterns (patterns : list compiledPattern) : Prop :=
  forall p, In p patterns ->
            no_dollar (name p) = true /\ no_dollar (maskedPrefix p) = true.

(** The body masker in the words of the specification: as
    [maskMatches], but a match is replaced by the masked value as a literal
    text. *)
Fixpoint maskMatches_literal (mp : maskingProcessor) (pattern : compiledPattern)
    (matches : list string) (result : string) : M string :=
  match matches with
  | [] => ret result
  | match_ :: rest =>
      r <- getMaskedValue mp match_ (name pattern) ;;
      match snd r with
      | Some err =>
          logger_Error "Failed to mask value"
            [zap_String "pattern" (name pattern); zap_String "value" match_;
             zap_Error err] ;;
          maskMatches_literal mp pattern rest result
      | None =>
          maskMatches_literal mp pattern rest
            (Regexp.replace_all_literal match_ (fst r) result)
      end
  end.

Fixpoint maskPatterns_literal (mp : maskingProcessor)
    (patterns : list compiledPattern) (result : string) : M string :=
  match patterns with
  | [] => ret result
  | pattern :: rest =>
      result' <- maskMatches_literal mp pattern (regex pattern result) result ;;
      maskPatterns_literal mp rest result'
  end.

Definition maskBody_as_specified (mp : maskingProcessor) (text : string) : M string :=
  maskPatterns_literal mp (compiledPatterns mp) text.

(** ** Configuration checks and construction

    [Validate] (config.go), [createDefaultConfig] (factory.go) and
    [newMaskingProcessor] (processor.go). *)

(** [component.NewConfigError(msg)] *)
Inductive ConfigError : Type :=
| NewConfigError (msg : string).

(** [cfg.Validate()]: the configuration as the call leaves it, and the
    error. *)
Definition Validate (cfg : Config) : Config * option ConfigError :=
  let cfg :=
    if (RedisAddr cfg =? "")%string
    then mkConfig "localhost:6379" (RedisPassword cfg) (RedisDB cfg) (TokenTTL cfg)
                  (FieldsToMask cfg) (Patterns cfg)
    else cfg in
  if (TokenTTL cfg <? 0)%Z
  then (cfg, Some (NewConfigError "token_ttl must be non-negative"))
  else (cfg, None).

Definition createDefaultConfig : Config :=
  mkConfig "localhost:6379" "" 0 0 []
    [mkPatternConfig "ipv4" "\b(?:\d{1,3}\.){3}\d{1,3}\b" "IP-";
     mkPatternConfig "hostname"
       "\b[a-zA-Z0-9]([a-zA-Z0-9-]{0,61}[a-zA-Z0-9])?(\.[a-zA-Z0-9]([a-zA-Z0-9-]{0,61}[a-zA-Z0-9])?)*\b"
       "HOST-"].

(** The error of [regexp.Compile] ([*syntax.Error]), and that error wrapped
    by [fmt.Errorf(prefix + "%w", err)]. *)
Inductive SyntaxError : Type :=
| syntax_Error (msg : string).

Inductive ConstructionError : Type :=
| Errorf_syntax (prefix : string) (err : SyntaxError).

(** The loop of [newMaskingProcessor]; [Compile] is [regexp.Compile]. *)
Fixpoint compilePatterns (Compile : string -> Regexp.Regexp + SyntaxError)
    (patterns : list PatternConfig) : list compiledPattern + ConstructionError :=
  match patterns with
  | [] => inl []
  | pattern :: rest =>
      match Compile (Regex pattern) with
      | inr err =>
          inr (Errorf_syntax
                 ("failed to compile regex pattern '" ++ Name pattern ++ "': ") err)
      | inl regex =>
          match compilePatterns Compile rest with
          | inl compiled =>
              inl (mkCompiledPattern (Name pattern) regex (MaskedPrefix pattern) :: compiled)
          | inr err => inr err
          end
      end
  end.

(** [newMaskingProcessor(config, logger)]; [client] is the connection
    [start] puts into the processor afterwards. *)
Definition newMaskingProcessor (Compile : string -> Regexp.Regexp + SyntaxError)
    (client : Client) (config : Config) : maskingProcessor + ConstructionError :=
  match compilePatterns Compile (Patterns config) with
  | inl compiled => inl (mkMaskingProcessor config client compiled)
  | inr err => inr err
  end.

(** ** Vocabulary of the further properties *)

Definition no_colon (s : string) : bool :=
  all_chars (fun c => negb (Ascii.eqb c ":")) s.

(** Every read fails, whatever the key, with an error other than
    [redis.Nil]. *)
Definition reads_fail (client : Client) : Prop :=
  forall history key, exists err,
    reply_err (client history (Get key)) = Some err /\ err <> redis_Nil.

(** Every read is answered [redis.Nil]. *)
Definition reads_miss (client : Client) : Prop :=
  forall history key, reply_err (client history (Get key)) = Some redis_Nil.

(** Reads and logger lines: nothing that changes the store or the
    record. *)
Definition read_or_log (e : Event) : Prop :=
  match e with
  | EvRedis (Get _) => True
  | EvLogError _ _ => True
  | _ => False
  end.

(** The keys read, in order. *)
Fixpoint read_keys (tr : Trace) : list string :=
  match tr with
  | [] => []
  | EvRedis (Get key) :: tr' => key :: read_keys tr'
  | _ :: tr' => read_keys tr'
  end.

(** A processor on the working store. *)
Definition live_mp (cfg : Config) (patterns : list compiledPattern) : maskingProcessor :=
  mkMaskingProcessor cfg client_live patterns.

(** Every read is answered, by a value or by [redis.Nil]. *)
Definition reads_answered (client : Client) : Prop :=
  forall history key,
    reply_err (client history (Get key)) = None
    \/ reply_err (client history (Get key)) = Some redis_Nil.

(** What masking may do to an attribute: keep its key, and either keep its
    value or make it a value of type Str. *)
Definition masked_or_kept (before after : string * Value) : Prop :=
  fst after = fst before
  /\ (snd after = snd before \/ Type_ (snd after) = ValueTypeStr).

(** The prefix under the first entry named [category] of a table of names
    and prefixes. *)
Fixpoint table_prefix (table : list (string * string)) (category : string) : string :=
  match table with
  | [] => ""
  | (n, p) :: rest => if (n =? category)%string then p else table_prefix rest category
  end.

Definition special_name (n : string) : bool :=
  (n =? "ipv4")%string || (n =? "hostname")%string.

(** The names and prefixes of the patterns not named "ipv4" or
    "hostname". *)
Definition effective_table (mp : maskingProcessor) : list (string * string) :=
  filter (fun np => negb (special_name (fst np))) (pattern_table mp).

(** A working store whose very first command, if it is a read, times out:
    a failure that does not repeat. *)
Definition client_first_read_fails : Client :=
  fun history c =>
    match history, c with
    | [], Get _ => mkReply "" (Some (TransportError "i/o timeout"))
    | _, _ => client_live history c
    end.

(** A configuration that lists one field twice. *)
Definition twice_config : Config :=
  mkConfig "localhost:6379" "" 0 3600 ["username"; "username"] [].

Definition twice_mp : maskingProcessor :=
  mkMaskingProcessor twice_config client_first_read_fails [].

(** What one call of [getMaskedValue] makes of the attribute value [v]:
    [v] itself when the call fails, the returned text as a Str otherwise. *)
Definition attribute_outcome (r : (string * option error) * Trace) (v : Value) : Value :=
  match snd (fst r) with
  | Some _ => v
  | None => ValueStr (fst (fst r))
  end.

(** Every call made for the attribute [(k, v)] fails: the read of its key
    fails at the history [history] and again after each failed attempt,
    once for each of the [calls] listings of [k]. *)
Definition calls_fail (client : Client) (history : list Cmd) (key : string)
    (calls : nat) : Prop :=
  forall n, (n < calls)%nat ->
    exists err,
      reply_err (client (history ++ repeat (Get key) n)%list (Get key)) = Some err
      /\ err <> redis_Nil.

(** An expression compiler to run [newMaskingProcessor] with: it refuses
    the expression "(" and reads any other as a literal. *)
Definition sample_Compile (expr : string) : Regexp.Regexp + SyntaxError :=
  if (expr =? "(")%string
  then inr (syntax_Error "error parsing regexp: missing closing ): `(`")
  else inl (Regexp.literal expr).

(** * Checks of the library models *)

Example sha_abc :
  Hex.EncodeToString (Sha256.Sum256 (bytes_of_string "abc"))
  = "ba7816bf8f01cfea414140de5dae2223b00361a396177a9cb410ff61f20015ad".
Proof. vm_compute. reflexivity. Qed.

Example sha_empty :
  Hex.EncodeToString (Sha256.Sum256 [])
  = "e3b0c44298fc1c149afbf4c8996fb92427ae41e4649b934ca495991b7852b855".
Proof. vm_compute. reflexivity. Qed.

Example sha_two_blocks :
  Hex.EncodeToString (Sha256.Sum256 (bytes_of_string
    "abcdbcdecdefdefgefghfghighijhijkijkljklmklmnlmnomnopnopq"))
  = "248d6a61d20638b8e5c026930c3e6039a33ce45964ff2167f6ecedd419db06c1".
Proof. vm_compute. reflexivity. Qed.

Example sha_constants :
  nth 0 Sha256.K 0 = 0x428a2f98 /\ nth 63 Sha256.K 0 = 0xc67178f2
  /\ List.length Sha256.K = 64%nat
  /\ Sha256.h0 Sha256.init = 0x6a09e667 /\ Sha256.h7 Sha256.init = 0x5be0cd19.
Proof. repeat split. Qed.

Example fmt_d_217 : fmt_d 217 = "217".
Proof. reflexivity. Qed.

Example fmt_d_0 : fmt_d 0 = "0".
Proof. reflexivity. Qed.

Example expand_plain : Regexp.expand "IP-0123abcd" "1.2.3.4" = "IP-0123abcd".
Proof. reflexivity. Qed.

Example expand_group0 : Regexp.expand "<$0|${0}|$$|$1|$x|$>" "m" = "<m|m|$|||$>".
Proof. reflexivity. Qed.

Example replace_ab :
  Regexp.ReplaceAllString_QuoteMeta "aa" "aaa.aa.a" "X" = "Xa.X.a".
Proof. reflexivity. Qed.

Example replace_empty_ab : Regexp.ReplaceAllString_QuoteMeta "" "ab" "X" = "XaXbX".
Proof. reflexivity. Qed.

Example find_aa : Regexp.literal "aa" "aaa.aa.a" = ["aa"; "aa"].
Proof. reflexivity. Qed.

(** * The embedding on sample inputs *)

Example generateMaskedValue_samples :
  generateMaskedValue (sample_mp client_down) "1.2.3.4" "ipv4" = "10.217.115.103"
  /\ generateMaskedValue (sample_mp client_down) "web01" "hostname"
     = "host-bb76538c.masked.local"
  /\ generateMaskedValue (sample_mp client_down) "alice" "attribute_username"
     = "username-553c8493a142"
  /\ generateMaskedValue (sample_mp client_down) "secret" "token" = "TOK-a78dd2126c3e"
  /\ generateMaskedValue (sample_mp client_down) "secret" "other" = "c6d920a8cd81".
Proof. repeat split; vm_compute; reflexivity. Qed.

Example token_ttl_samples :
  token_ttl sample_config = 3600000000000%Z
  /\ token_ttl dollar_config = 0%Z
  /\ token_ttl (mkConfig "" "" 0 9223372037 [] []) = (-9223372036709551616)%Z.
Proof. repeat split. Qed.

(** A miss writes both entries; the next call for the same pair is a hit. *)
Example getMaskedValue_miss_then_hit :
  (getMaskedValue (sample_mp client_live) "alice" "attribute_username" ;;
   getMaskedValue (sample_mp client_live) "alice" "attribute_username") []
  = (("username-553c8493a142", None),
     [EvRedis (Get "mask:attribute_username:alice");
      EvRedis (Set_ "mask:attribute_username:alice" "username-553c8493a142"
                 3600000000000);
      EvRedis (Set_ "unmask:attribute_username:username-553c8493a142" "alice"
                 3600000000000);
      EvRedis (Get "mask:attribute_username:alice")]).
Proof. vm_compute. reflexivity. Qed.

(** Patterns in order, every occurrence of a match replaced. *)
Example maskPatternsInString_sample :
  fst (maskPatternsInString (sample_mp client_live)
         "from 192.168.1.1 with secret/secret" [])
  = "from 10.68.224.229 with TOK-a78dd2126c3e/TOK-a78dd2126c3e".
Proof. vm_compute. reflexivity. Qed.

(** A failed read leaves the match in place and the loop goes on. *)
Example maskPatternsInString_failed_read :
  maskPatternsInString (sample_mp (client_flaky "mask:ipv4:192.168.1.1"))
    "from 192.168.1.1 with secret" []
  = ("from 192.168.1.1 with TOK-a78dd2126c3e",
     [EvRedis (Get "mask:ipv4:192.168.1.1");
      EvLogError "Failed to mask value"
        [zap_String "pattern" "ipv4"; zap_String "value" "192.168.1.1";
         zap_Error (Errorf_w "redis get error: " (TransportError "i/o timeout"))];
      EvRedis (Get "mask:token:secret");
      EvRedis (Set_ "mask:token:secret" "TOK-a78dd2126c3e" 3600000000000);
      EvRedis (Set_ "unmask:token:TOK-a78dd2126c3e" "secret" 3600000000000)]).
Proof. vm_compute. reflexivity. Qed.

(** * Facts about the library models *)

Section Digest.

Lemma be_bytes_length (w : nat) (x : Z) : List.length (Sha256.be_bytes w x) = w.
Proof. induction w as [|w IH]; simpl; [reflexivity | now rewrite IH]. Qed.

Lemma be_bytes_range (w : nat) (x : Z) :
  Forall (fun b => (0 <= b < 256)%Z) (Sha256.be_bytes w x).
Proof.
  induction w as [|w IH]; simpl; constructor; auto.
  apply Z.mod_pos_bound; lia.
Qed.

Lemma Sum256_length (data : list Z) : List.length (Sha256.Sum256 data) = 32%nat.
Proof.
  unfold Sha256.Sum256, Sha256.digest.
  rewrite !length_app, !be_bytes_length. reflexivity.
Qed.

Lemma Sum256_range (data : list Z) :
  Forall (fun b => (0 <= b < 256)%Z) (Sha256.Sum256 data).
Proof.
  unfold Sha256.Sum256, Sha256.digest.
  repeat (apply Forall_app; split); apply be_bytes_range.
Qed.

Lemma Sum256_nth_range (data : list Z) (i : nat) :
  (i < 32)%nat -> (0 <= nth i (Sha256.Sum256 data) 0 < 256)%Z.
Proof.
  intros Hi.
  pose proof (Sum256_range data) as HF.
  rewrite Forall_forall in HF. apply HF.
  apply nth_In. now rewrite Sum256_length.
Qed.

Lemma EncodeToString_length (src : list Z) :
  String.length (Hex.EncodeToString src) = (2 * List.length src)%nat.
Proof. induction src as [|b rest IH]; simpl; [reflexivity | rewrite IH; lia]. Qed.

End Digest.

Section Strings.

Lemma substring_0_0 (s : string) : substring 0 0 s = "".
Proof. destruct s; reflexivity. Qed.

Lemma substring_whole (s : string) : substring 0 (String.length s) s = s.
Proof. induction s as [|c s IH]; simpl; [reflexivity | now rewrite IH]. Qed.

Lemma substring_0_length (n : nat) (s : string) :
  (n <= String.length s)%nat -> String.length (substring 0 n s) = n.
Proof.
  revert s; induction n as [|n IH]; intros s Hn.
  - now rewrite substring_0_0.
  - destruct s as [|c s]; simpl in *; [lia|]. rewrite IH; [reflexivity | lia].
Qed.

Lemma append_length (s1 s2 : string) :
  String.length (s1 ++ s2) = (String.length s1 + String.length s2)%nat.
Proof. induction s1 as [|c s1 IH]; simpl; [reflexivity | now rewrite IH]. Qed.

Lemma append_assoc (s1 s2 s3 : string) : (s1 ++ s2) ++ s3 = s1 ++ (s2 ++ s3).
Proof. induction s1 as [|c s1 IH]; simpl; [reflexivity | now rewrite IH]. Qed.

End Strings.

Lemma digit_is_hex (n : Z) : is_hex_char (Hex.digit n) = true.
Proof.
  unfold Hex.digit.
  destruct (Z.to_nat n) as [|k]; [reflexivity|].
  do 15 (destruct k as [|k]; [reflexivity|]).
  reflexivity.
Qed.

Lemma EncodeToString_hex (src : list Z) :
  all_chars is_hex_char (Hex.EncodeToString src) = true.
Proof.
  induction src as [|b rest IH]; [reflexivity|].
  cbn [Hex.EncodeToString all_chars].
  now rewrite !digit_is_hex, IH.
Qed.

Lemma all_chars_substring (f : ascii -> bool) (s : string) (n : nat) :
  all_chars f s = true -> all_chars f (substring 0 n s) = true.
Proof.
  revert s; induction n as [|n IH]; intros s Hs.
  - now rewrite substring_0_0.
  - destruct s as [|c s]; [reflexivity|].
    simpl in *. apply andb_true_iff in Hs as [Hc Hs].
    now rewrite Hc, IH.
Qed.

Lemma hex12_length (originalValue category : string) :
  String.length (hex12 originalValue category) = 12%nat.
Proof.
  unfold hex12. apply substring_0_length.
  rewrite EncodeToString_length, Sum256_length. lia.
Qed.

Lemma hex12_hex (originalValue category : string) :
  all_chars is_hex_char (hex12 originalValue category) = true.
Proof. unfold hex12. apply all_chars_substring, EncodeToString_hex. Qed.

(** * The value synthesizer *)

Section Synthesizer.

Variable mp : maskingProcessor.

Lemma pattern_prefix_find (patterns : list compiledPattern) (category : string) :
  pattern_prefix patterns category
  = match find (fun p => (name p =? category)%string) patterns with
    | Some p => maskedPrefix p
    | None => ""
    end.
Proof.
  induction patterns as [|p ps IH]; simpl; [reflexivity|].
  destruct (name p =? category)%string; [reflexivity | exact IH].
Qed.

Lemma pattern_prefix_table (ps1 ps2 : list compiledPattern) (category : string) :
  map (fun p => (name p, maskedPrefix p)) ps1
  = map (fun p => (name p, maskedPrefix p)) ps2 ->
  pattern_prefix ps1 category = pattern_prefix ps2 category.
Proof.
  revert ps2; induction ps1 as [|p ps1 IH]; intros [|q ps2] H; simpl in *;
    try discriminate; [reflexivity|].
  injection H as Hn Hp Hrest. rewrite Hn, Hp, (IH _ Hrest). reflexivity.
Qed.

Lemma substring_prefix_app (p s : string) :
  substring 0 (String.length p) (p ++ s) = p.
Proof.
  induction p as [|c p IH]; simpl; [apply substring_0_0 | now rewrite IH].
Qed.

Lemma substring_skip_app (p s : string) (n : nat) :
  substring (String.length p) n (p ++ s) = substring 0 n s.
Proof. induction p as [|c p IH]; simpl; [reflexivity | exact IH]. Qed.

Lemma length_nonempty (s : string) : s <> "" -> (0 < String.length s)%nat.
Proof. destruct s; [congruence | simpl; lia]. Qed.

(** A category that does not begin with the marker fails the test of the
    attribute branch. *)
Lemma attribute_test_false (category : string) :
  prefix "attribute_" category = false ->
  (10 <? String.length category)%nat
  && (substring 0 10 category =? "attribute_")%string = false.
Proof.
  intros Hp.
  destruct (substring 0 10 category =? "attribute_")%string eqn:E;
    [|apply andb_false_r].
  apply String.eqb_eq in E.
  assert (prefix "attribute_" category = true) as Ht
    by (apply prefix_correct; exact E).
  congruence.
Qed.

Lemma generateMaskedValue_other (originalValue category : string) :
  category <> "ipv4" -> category <> "hostname" ->
  prefix "attribute_" category = false ->
  generateMaskedValue mp originalValue category
  = pattern_prefix (compiledPatterns mp) category ++ hex12 originalValue category.
Proof.
  intros Hip Hhost Hattr.
  unfold generateMaskedValue.
  apply String.eqb_neq in Hip, Hhost. rewrite Hip, Hhost.
  rewrite (attribute_test_false _ Hattr). reflexivity.
Qed.

End Synthesizer.

Lemma head_octet_app (s rest : string) :
  no_dot s = true -> head_octet (s ++ "." ++ rest) = s.
Proof.
  induction s as [|c s IH]; intros H; [reflexivity|].
  simpl in *. apply andb_true_iff in H as [Hc Hs].
  destruct (Ascii.eqb c "."); [discriminate|]. now rewrite (IH Hs).
Qed.

(** C3. Two calls of [generateMaskedValue] with the same value and category
    give the same string: the result depends on the two arguments and on the
    names and prefixes of the patterns only, not on the connection, the rest
    of the configuration or the compiled expressions. *)
Theorem generateMaskedValue_deterministic (mp1 mp2 : maskingProcessor)
    (originalValue category : string) :
  pattern_table mp1 = pattern_table mp2 ->
  generateMaskedValue mp1 originalValue category
  = generateMaskedValue mp2 originalValue category.
Proof.
  intros Htable. unfold generateMaskedValue.
  now rewrite (pattern_prefix_table _ _ category Htable).
Qed.

Lemma generateMaskedValue_deterministic_witness :
  pattern_table (sample_mp client_down)
  = pattern_table
      (mkMaskingProcessor dollar_config client_live
         [mkCompiledPattern "ipv4" (fun _ => []) "IP-";
          mkCompiledPattern "token" (Regexp.literal "x") "TOK-"])
  /\ generateMaskedValue (sample_mp client_down) "secret" "token"
     = generateMaskedValue
         (mkMaskingProcessor dollar_config client_live
            [mkCompiledPattern "ipv4" (fun _ => []) "IP-";
             mkCompiledPattern "token" (Regexp.literal "x") "TOK-"])
         "secret" "token".
Proof.
  split; [reflexivity|].
  apply generateMaskedValue_deterministic. reflexivity.
Defined.

(** C4, as the code has it. For the category "ipv4" the result is a dotted
    quad whose first octet is the constant 10 and whose other three octets
    are the first three bytes of the SHA-256 digest of the original value
    followed by the category. *)
Theorem generateMaskedValue_ipv4 (mp : maskingProcessor) (originalValue : string) :
  let hash := Sha256.Sum256 (bytes_of_string (originalValue ++ "ipv4")) in
  generateMaskedValue mp originalValue "ipv4"
  = dotted_quad 10 (nth 0 hash 0%Z) (nth 1 hash 0%Z) (nth 2 hash 0%Z)
  /\ (0 <= nth 0 hash 0 < 256)%Z
  /\ (0 <= nth 1 hash 0 < 256)%Z
  /\ (0 <= nth 2 hash 0 < 256)%Z.
Proof.
  intros hash.
  assert (H0 : (0 <= nth 0 hash 0 < 256)%Z) by (apply Sum256_nth_range; lia).
  assert (H1 : (0 <= nth 1 hash 0 < 256)%Z) by (apply Sum256_nth_range; lia).
  assert (H2 : (0 <= nth 2 hash 0 < 256)%Z) by (apply Sum256_nth_range; lia).
  repeat split; try lia.
  unfold generateMaskedValue. fold hash.
  change (("ipv4" =? "ipv4")%string) with true. cbv iota.
  rewrite !Z.mod_small by assumption.
  reflexivity.
Qed.

(** C4, as stated, fails: the masked form of "1.2.3.4" is 10.217.115.103,
    and 10 is not among the 32 bytes of the digest. *)
Lemma generateMaskedValue_ipv4_not_four_digest_bytes :
  ~ four_digest_bytes
      (generateMaskedValue (sample_mp client_down) "1.2.3.4" "ipv4")
      (Sha256.Sum256 (bytes_of_string ("1.2.3.4" ++ "ipv4"))).
Proof.
  intros (i & j & k & l & (Hi & _) & Heq).
  set (hash := Sha256.Sum256 (bytes_of_string ("1.2.3.4" ++ "ipv4"))) in *.
  assert (Hlen : List.length hash = 32%nat) by apply Sum256_length.
  assert (Hall : forallb (fun b => no_dot (fmt_d b) && negb (fmt_d b =? "10")%string) hash = true)
    by (vm_compute; reflexivity).
  rewrite forallb_forall in Hall.
  assert (Hin : In (nth i hash 0%Z) hash) by (apply nth_In; lia).
  apply Hall in Hin. apply andb_true_iff in Hin as [Hdot Hne].
  apply (f_equal head_octet) in Heq.
  unfold dotted_quad in Heq. rewrite (head_octet_app _ _ Hdot) in Heq.
  replace (head_octet (generateMaskedValue (sample_mp client_down) "1.2.3.4" "ipv4"))
    with "10" in Heq by (vm_compute; reflexivity).
  rewrite <- Heq in Hne. discriminate.
Qed.

(** C5. For a non-empty field name [f], the category "attribute_" ++ f
    yields [f], a dash, and the first twelve hex characters of the digest of
    the original value followed by the category. *)
Theorem generateMaskedValue_attribute (mp : maskingProcessor)
    (originalValue f : string) :
  f <> "" ->
  generateMaskedValue mp originalValue ("attribute_" ++ f)
  = f ++ "-" ++ hex12 originalValue ("attribute_" ++ f)
  /\ String.length (hex12 originalValue ("attribute_" ++ f)) = 12%nat
  /\ all_chars is_hex_char (hex12 originalValue ("attribute_" ++ f)) = true.
Proof.
  intros Hf. split; [|split; [apply hex12_length | apply hex12_hex]].
  unfold generateMaskedValue.
  replace (("attribute_" ++ f =? "ipv4")%string) with false by reflexivity.
  replace (("attribute_" ++ f =? "hostname")%string) with false by reflexivity.
  rewrite append_length.
  change (String.length "attribute_") with 10%nat.
  pose proof (length_nonempty f Hf) as Hlen.
  replace ((10 <? 10 + String.length f)%nat) with true
    by (symmetry; apply Nat.ltb_lt; lia).
  pose proof (substring_prefix_app "attribute_" f) as Hpre.
  change (String.length "attribute_") with 10%nat in Hpre. rewrite Hpre.
  change (("attribute_" =? "attribute_")%string) with true. cbv [andb].
  replace (10 + String.length f - 10)%nat with (String.length f) by lia.
  pose proof (substring_skip_app "attribute_" f (String.length f)) as Hskip.
  change (String.length "attribute_") with 10%nat in Hskip.
  rewrite Hskip, substring_whole.
  rewrite append_assoc. reflexivity.
Qed.

Lemma generateMaskedValue_attribute_witness :
  "username" <> ""
  /\ generateMaskedValue (sample_mp client_down) "alice" ("attribute_" ++ "username")
     = "username" ++ "-" ++ hex12 "alice" ("attribute_" ++ "username").
Proof.
  split; [discriminate|].
  apply (generateMaskedValue_attribute (sample_mp client_down) "alice" "username").
  discriminate.
Defined.

(** C6. For a category other than "ipv4" and "hostname" that does not begin
    with "attribute_": when a configured pattern carries that name the
    result is that pattern's prefix (the first such pattern's) followed by
    the twelve hex characters, and when none does it is the twelve hex
    characters alone. *)
Theorem generateMaskedValue_pattern (mp : maskingProcessor)
    (originalValue category : string) :
  category <> "ipv4" -> category <> "hostname" ->
  prefix "attribute_" category = false ->
  (forall p,
      find (fun p => (name p =? category)%string) (compiledPatterns mp) = Some p ->
      generateMaskedValue mp originalValue category
      = maskedPrefix p ++ hex12 originalValue category)
  /\ ((exists p, In p (compiledPatterns mp) /\ name p = category) ->
      exists p, In p (compiledPatterns mp) /\ name p = category /\
                generateMaskedValue mp originalValue category
                = maskedPrefix p ++ hex12 originalValue category)
  /\ ((forall p, In p (compiledPatterns mp) -> name p <> category) ->
      generateMaskedValue mp originalValue category = hex12 originalValue category).
Proof.
  intros Hip Hhost Hattr.
  rewrite (generateMaskedValue_other mp _ _ Hip Hhost Hattr), pattern_prefix_find.
  repeat split.
  - intros p Hfind. now rewrite Hfind.
  - intros (p & Hin & Hname).
    destruct (find (fun p => (name p =? category)%string) (compiledPatterns mp)) as [q|] eqn:E.
    + apply find_some in E as [Hq Hqn]. apply String.eqb_eq in Hqn.
      exists q. auto.
    + apply (find_none _ _ E) in Hin. apply String.eqb_neq in Hin. contradiction.
  - intros Hnone.
    destruct (find (fun p => (name p =? category)%string) (compiledPatterns mp)) as [q|] eqn:E;
      [|reflexivity].
    apply find_some in E as [Hq Hqn]. apply String.eqb_eq in Hqn.
    exfalso. exact (Hnone q Hq Hqn).
Qed.

Lemma generateMaskedValue_pattern_witness :
  generateMaskedValue (sample_mp client_down) "secret" "token"
  = "TOK-" ++ hex12 "secret" "token"
  /\ generateMaskedValue (sample_mp client_down) "secret" "other"
     = hex12 "secret" "other".
Proof.
  split.
  - apply (proj1 (generateMaskedValue_pattern (sample_mp client_down) "secret" "token"
              ltac:(discriminate) ltac:(discriminate) eq_refl)
             (mkCompiledPattern "token" (Regexp.literal "secret") "TOK-")).
    reflexivity.
  - apply (proj2 (proj2 (generateMaskedValue_pattern (sample_mp client_down) "secret" "other"
              ltac:(discriminate) ltac:(discriminate) eq_refl))).
    intros p [<-|[<-|[]]]; discriminate.
Defined.

(** * The token store *)

Section TokenStore.

Variable mp : maskingProcessor.

Lemma bind_run {A B : Type} (m : M A) (k : A -> M B) (tr tr' : Trace) (a : A) :
  m tr = (a, tr') -> bind m k tr = k a tr'.
Proof. intros H. unfold bind. now rewrite H. Qed.

Lemma commands_app (tr1 tr2 : Trace) :
  commands (tr1 ++ tr2)%list = (commands tr1 ++ commands tr2)%list.
Proof.
  induction tr1 as [|e tr1 IH]; simpl; [reflexivity|].
  destruct e; simpl; now rewrite IH.
Qed.

Lemma new_events_app {A : Type} (m : M A) (tr evs : Trace) (a : A) :
  m tr = (a, (tr ++ evs)%list) -> new_events m tr = evs.
Proof.
  intros H. unfold new_events. rewrite H. simpl.
  rewrite skipn_app, Nat.sub_diag, skipn_all. reflexivity.
Qed.

Lemma getMaskedValue_hit (originalValue category : string) (tr : Trace) :
  let key := forward_key category originalValue in
  let r := redisClient mp (commands tr) (Get key) in
  reply_err r = None ->
  getMaskedValue mp originalValue category tr
  = ((reply_val r, None), (tr ++ [EvRedis (Get key)])%list).
Proof.
  intros key r H. unfold getMaskedValue, bind, redis_do, ret.
  fold key; fold r. now rewrite H.
Qed.

Lemma getMaskedValue_fail (originalValue category : string) (tr : Trace) (err : error) :
  let key := forward_key category originalValue in
  let r := redisClient mp (commands tr) (Get key) in
  reply_err r = Some err -> err <> redis_Nil ->
  getMaskedValue mp originalValue category tr
  = (("", Some (Errorf_w "redis get error: " err)), (tr ++ [EvRedis (Get key)])%list).
Proof.
  intros key r H Hne. unfold getMaskedValue, bind, redis_do, ret.
  fold key; fold r. rewrite H.
  destruct (error_eq_dec err redis_Nil); [contradiction | reflexivity].
Qed.

Lemma getMaskedValue_miss (originalValue category : string) (tr : Trace) :
  let key := forward_key category originalValue in
  let r := redisClient mp (commands tr) (Get key) in
  let masked := generateMaskedValue mp originalValue category in
  let ttl := token_ttl (config mp) in
  let r1 := redisClient mp (commands tr ++ [Get key])%list (Set_ key masked ttl) in
  reply_err r = Some redis_Nil ->
  getMaskedValue mp originalValue category tr
  = ((masked, None),
     (tr ++ [EvRedis (Get key); EvRedis (Set_ key masked ttl)]
         ++ store_failure_log r1
         ++ [EvRedis (Set_ (reverse_key category masked) originalValue ttl)])%list).
Proof.
  intros key r masked ttl r1 H.
  unfold getMaskedValue, bind, redis_do, ret, logger_Error, emit.
  fold key; fold r. rewrite H.
  destruct (error_eq_dec redis_Nil redis_Nil) as [_|Hne]; [|contradiction].
  fold masked; fold ttl.
  rewrite commands_app. simpl commands.
  unfold store_failure_log; subst r1.
  destruct (reply_err (redisClient mp _ (Set_ key masked ttl)));
    simpl; rewrite <- !app_assoc; reflexivity.
Qed.

Lemma commands_store_failure_log (r : Reply) : commands (store_failure_log r) = [].
Proof. unfold store_failure_log. destruct (reply_err r); reflexivity. Qed.

End TokenStore.

(** C1. When the read of the forward key fails with an error other than
    [redis.Nil], [getMaskedValue] returns that error (wrapped) with an empty
    value and sends nothing but the read; a write, which carries a
    synthesized value, is sent only when the read was answered
    [redis.Nil]. *)
Theorem getMaskedValue_read_error (mp : maskingProcessor)
    (originalValue category : string) (tr : Trace) :
  let key := forward_key category originalValue in
  let r := redisClient mp (commands tr) (Get key) in
  (forall err, reply_err r = Some err -> err <> redis_Nil ->
     getMaskedValue mp originalValue category tr
     = (("", Some (Errorf_w "redis get error: " err)), (tr ++ [EvRedis (Get key)])%list))
  /\ (forall k v ttl,
        In (EvRedis (Set_ k v ttl))
           (new_events (getMaskedValue mp originalValue category) tr) ->
        reply_err r = Some redis_Nil).
Proof.
  intros key r. split.
  - intros err H Hne. now apply getMaskedValue_fail.
  - intros k v ttl Hin.
    destruct (reply_err r) as [err|] eqn:E.
    + destruct (error_eq_dec err redis_Nil) as [->|Hne]; [reflexivity|].
      rewrite (new_events_app _ _ _ _ (getMaskedValue_fail mp _ _ tr err E Hne)) in Hin.
      destruct Hin as [Hin|[]]; discriminate.
    + rewrite (new_events_app _ _ _ _ (getMaskedValue_hit mp _ _ tr E)) in Hin.
      destruct Hin as [Hin|[]]; discriminate.
Qed.

Lemma getMaskedValue_read_error_witness :
  getMaskedValue (sample_mp client_down) "alice" "attribute_username" []
  = (("", Some (Errorf_w "redis get error: "
                  (TransportError "dial tcp: connection refused"))),
     [EvRedis (Get "mask:attribute_username:alice")]).
Proof.
  apply (proj1 (getMaskedValue_read_error (sample_mp client_down)
                  "alice" "attribute_username" [])
           (TransportError "dial tcp: connection refused") eq_refl).
  discriminate.
Defined.

(** C2, as stated, fails: with a store that answers every command with a
    connection error, [getMaskedValue] returns the read error, not the
    synthesized value. *)
Lemma getMaskedValue_store_unavailable_fails :
  store_unavailable (redisClient (sample_mp client_down))
  /\ fst (getMaskedValue (sample_mp client_down) "alice" "attribute_username" [])
     = ("", Some (Errorf_w "redis get error: "
                    (TransportError "dial tcp: connection refused")))
  /\ fst (getMaskedValue (sample_mp client_down) "alice" "attribute_username" [])
     <> (generateMaskedValue (sample_mp client_down) "alice" "attribute_username", None).
Proof.
  split; [|split].
  - intros history c. eexists. reflexivity.
  - reflexivity.
  - discriminate.
Qed.

(** C2, as the code has it. With every write failing: when the read is
    answered [redis.Nil], [getMaskedValue] returns exactly what
    [generateMaskedValue] gives; when the read fails on the connection too,
    it returns the read error and no value. *)
Theorem getMaskedValue_writes_unavailable (mp : maskingProcessor)
    (originalValue category : string) (tr : Trace) :
  writes_fail (redisClient mp) ->
  let r := redisClient mp (commands tr) (Get (forward_key category originalValue)) in
  (reply_err r = Some redis_Nil ->
   fst (getMaskedValue mp originalValue category tr)
   = (generateMaskedValue mp originalValue category, None))
  /\ (forall msg, reply_err r = Some (TransportError msg) ->
      fst (getMaskedValue mp originalValue category tr)
      = ("", Some (Errorf_w "redis get error: " (TransportError msg)))).
Proof.
  intros _ r. split.
  - intros H. now rewrite (getMaskedValue_miss mp _ _ tr H).
  - intros msg H. rewrite (getMaskedValue_fail mp _ _ tr _ H); [reflexivity|discriminate].
Qed.

Lemma getMaskedValue_writes_unavailable_witness :
  writes_fail (redisClient (sample_mp client_read_only))
  /\ fst (getMaskedValue (sample_mp client_read_only) "alice" "attribute_username" [])
     = (generateMaskedValue (sample_mp client_read_only) "alice" "attribute_username", None).
Proof.
  assert (Hw : writes_fail (redisClient (sample_mp client_read_only)))
    by (intros history key value ttl; eexists; reflexivity).
  split; [exact Hw|].
  apply (proj1 (getMaskedValue_writes_unavailable (sample_mp client_read_only)
                  "alice" "attribute_username" [] Hw)).
  reflexivity.
Defined.

(** C8. On a miss the synthesized value is returned whatever the two writes
    answer, and both writes are sent; an error comes out of
    [getMaskedValue] only when the read failed with an error other than
    [redis.Nil]. *)
Theorem getMaskedValue_write_errors_swallowed (mp : maskingProcessor)
    (originalValue category : string) (tr : Trace) :
  let key := forward_key category originalValue in
  let r := redisClient mp (commands tr) (Get key) in
  let masked := generateMaskedValue mp originalValue category in
  let ttl := token_ttl (config mp) in
  (reply_err r = Some redis_Nil ->
   fst (getMaskedValue mp originalValue category tr) = (masked, None)
   /\ commands (new_events (getMaskedValue mp originalValue category) tr)
      = [Get key; Set_ key masked ttl; Set_ (reverse_key category masked) originalValue ttl])
  /\ (forall e, snd (fst (getMaskedValue mp originalValue category tr)) = Some e ->
      exists err, reply_err r = Some err /\ err <> redis_Nil
                  /\ e = Errorf_w "redis get error: " err).
Proof.
  intros key r masked ttl. split.
  - intros H. pose proof (getMaskedValue_miss mp originalValue category tr H) as E.
    cbv zeta in E. fold key masked ttl in E.
    rewrite (new_events_app _ _ _ _ E), E. split; [reflexivity|].
    rewrite !commands_app, commands_store_failure_log. reflexivity.
  - intros e He.
    destruct (reply_err r) as [err|] eqn:E.
    + destruct (error_eq_dec err redis_Nil) as [->|Hne].
      * rewrite (getMaskedValue_miss mp _ _ tr E) in He. discriminate.
      * rewrite (getMaskedValue_fail mp _ _ tr err E Hne) in He.
        injection He as <-. exists err. auto.
    + rewrite (getMaskedValue_hit mp _ _ tr E) in He. discriminate.
Qed.

Lemma getMaskedValue_write_errors_swallowed_witness :
  fst (getMaskedValue (sample_mp client_read_only) "secret" "token" [])
  = (generateMaskedValue (sample_mp client_read_only) "secret" "token", None).
Proof.
  apply (proj1 (getMaskedValue_write_errors_swallowed (sample_mp client_read_only)
                  "secret" "token" []) eq_refl).
Defined.

(** * The masking engine *)

Section Traces.

Context {A B : Type}.
Variable P : Event -> Prop.

Lemma extends_ret (a : A) : extends P (ret a).
Proof. intros tr. exists []. simpl. now rewrite app_nil_r. Qed.

Lemma extends_bind (m : M A) (k : A -> M B) :
  extends P m -> (forall a, extends P (k a)) -> extends P (bind m k).
Proof.
  intros Hm Hk tr. unfold bind.
  destruct (Hm tr) as (e1 & H1 & F1).
  destruct (m tr) as [a tr1]. simpl in H1. subst tr1.
  destruct (Hk a (tr ++ e1)%list) as (e2 & H2 & F2).
  exists (e1 ++ e2)%list. rewrite H2, app_assoc. split; [reflexivity|].
  apply Forall_app; auto.
Qed.

Lemma extends_mapM (f : A -> M B) (l : list A) :
  (forall a, extends P (f a)) -> extends P (mapM f l).
Proof.
  intros Hf. induction l as [|a l IH]; simpl.
  - intros tr. exists []. simpl. now rewrite app_nil_r.
  - intros tr. unfold bind, ret.
    destruct (Hf a tr) as (e1 & H1 & F1).
    destruct (f a tr) as [b tr1]. simpl in H1. subst tr1.
    destruct (IH (tr ++ e1)%list) as (e2 & H2 & F2).
    destruct (mapM f l (tr ++ e1)%list) as [bs tr2]. simpl in *. subst tr2.
    exists (e1 ++ e2)%list. rewrite app_assoc. split; [reflexivity|].
    apply Forall_app; auto.
Qed.

End Traces.

Lemma extends_emit (P : Event -> Prop) (e : Event) : P e -> extends P (emit e).
Proof. intros H tr. exists [e]. split; [reflexivity | auto]. Qed.

Lemma extends_redis_do (P : Event -> Prop) (mp : maskingProcessor) (c : Cmd) :
  P (EvRedis c) -> extends P (redis_do mp c).
Proof. intros H tr. exists [EvRedis c]. split; [reflexivity | auto]. Qed.

Section Engine.

Variable mp : maskingProcessor.

Lemma quiet_getMaskedValue (originalValue category : string) :
  extends not_body_write (getMaskedValue mp originalValue category).
Proof.
  unfold getMaskedValue. apply extends_bind; [apply extends_redis_do; exact I|].
  intros r. destruct (reply_err r) as [err|]; [|apply extends_ret].
  destruct (error_eq_dec err redis_Nil); [|apply extends_ret].
  apply extends_bind; [apply extends_redis_do; exact I|]. intros r1.
  apply extends_bind.
  - destruct (reply_err r1); [apply extends_emit; exact I | apply extends_ret].
  - intros _. apply extends_bind; [apply extends_redis_do; exact I|].
    intros _. apply extends_ret.
Qed.

Lemma quiet_maskMatches (pattern : compiledPattern) (matches : list string)
    (result : string) :
  extends not_body_write (maskMatches mp pattern matches result).
Proof.
  revert result. induction matches as [|m rest IH]; intros result; simpl.
  - apply extends_ret.
  - apply extends_bind; [apply quiet_getMaskedValue|].
    intros r. destruct (snd r); [|apply IH].
    apply extends_bind; [apply extends_emit; exact I | intros _; apply IH].
Qed.

Lemma quiet_maskPatterns (patterns : list compiledPattern) (result : string) :
  extends not_body_write (maskPatterns mp patterns result).
Proof.
  revert result. induction patterns as [|p ps IH]; intros result; simpl.
  - apply extends_ret.
  - apply extends_bind; [apply quiet_maskMatches | intros r; apply IH].
Qed.

Lemma quiet_maskAttribute (k : string) (fields : list string) (v : Value) :
  extends not_body_write (maskAttribute mp k fields v).
Proof.
  revert v. induction fields as [|f rest IH]; intros v; simpl.
  - apply extends_ret.
  - destruct (k =? f)%string; [|apply IH].
    apply extends_bind; [apply quiet_getMaskedValue|].
    intros r. destruct (snd r).
    + apply extends_bind; [apply extends_emit; exact I | intros _; apply IH].
    + apply extends_bind; [apply extends_emit; exact I | intros _; apply IH].
Qed.

Lemma quiet_maskAttributes (attrs : list (string * Value)) :
  extends not_body_write (maskAttributes mp attrs).
Proof.
  unfold maskAttributes. apply extends_mapM. intros kv.
  apply extends_bind; [apply quiet_maskAttribute | intros v; apply extends_ret].
Qed.

(** [maskLogRecord], one pass after the other. *)
Lemma maskLogRecord_run (lr : LogRecord) (tr : Trace) :
  maskLogRecord mp lr tr
  = let (attrs, tr1) := maskAttributes mp (Attributes lr) tr in
    let (body, tr2) := maskBody mp (Body lr) tr1 in
    ((mkLogRecord attrs body, None), tr2).
Proof.
  unfold maskLogRecord, bind, ret.
  destruct (maskAttributes mp (Attributes lr) tr) as [attrs tr1].
  destruct (maskBody mp (Body lr) tr1) as [body tr2]. reflexivity.
Qed.

Lemma maskBody_not_string (body : Value) (tr : Trace) :
  Type_ body <> ValueTypeStr -> maskBody mp body tr = (body, tr).
Proof.
  intros H. unfold maskBody.
  destruct (ValueType_eq_dec (Type_ body) ValueTypeStr); [contradiction | reflexivity].
Qed.

Lemma maskBody_string (body : Value) (tr : Trace) :
  Type_ body = ValueTypeStr ->
  exists masked evs,
    maskPatternsInString mp (Str body) tr = (masked, (tr ++ evs)%list)
    /\ Forall not_body_write evs
    /\ maskBody mp body tr
       = if string_dec masked (Str body) then (body, (tr ++ evs)%list)
         else (ValueStr masked, (tr ++ evs ++ [EvSetStr BodyValue masked])%list).
Proof.
  intros H. unfold maskBody.
  destruct (ValueType_eq_dec (Type_ body) ValueTypeStr); [|contradiction].
  destruct (quiet_maskPatterns (compiledPatterns mp) (Str body) tr) as (evs & H1 & F1).
  fold (maskPatternsInString mp (Str body)) in H1.
  unfold bind, ret, emit.
  destruct (maskPatternsInString mp (Str body) tr) as [masked tr1].
  simpl in H1. subst tr1.
  exists masked, evs. repeat split; auto.
  destruct (string_dec masked (Str body)); [reflexivity|].
  now rewrite app_assoc.
Qed.

Lemma maskAttribute_read_fails (k : string) (fields : list string) (v : Value)
    (tr : Trace) :
  let key := forward_key ("attribute_" ++ k) (AsString v) in
  read_fails (redisClient mp) key ->
  exists evs,
    maskAttribute mp k fields v tr = (v, (tr ++ evs)%list)
    /\ Forall (failed_read_event key k) evs
    /\ (In k fields -> In (EvRedis (Get key)) evs).
Proof.
  intros key Hfail. revert tr.
  induction fields as [|f rest IH]; intros tr; simpl.
  - exists []. unfold ret. rewrite app_nil_r. repeat split; [constructor | tauto].
  - destruct (k =? f)%string eqn:E.
    + destruct (Hfail (commands tr)) as (err & Herr & Hne).
      rewrite (bind_run _ _ _ _ _ (getMaskedValue_fail mp (AsString v) _ tr err Herr Hne)).
      cbn [snd fst]. unfold bind at 1, logger_Error, emit. fold key.
      destruct (IH ((tr ++ [EvRedis (Get key)]) ++
                    [EvLogError "Failed to mask attribute"
                       [zap_String "key" k;
                        zap_Error (Errorf_w "redis get error: " err)]])%list)
        as (evs & Hrun & Hall & _).
      rewrite Hrun. eexists. rewrite <- !app_assoc. split; [reflexivity|].
      split.
      * simpl. constructor; [left; reflexivity|].
        constructor; [right; eexists; reflexivity | exact Hall].
      * intros _. left. reflexivity.
    + destruct (IH tr) as (evs & Hrun & Hall & Hin).
      exists evs. repeat split; auto.
      intros [->|Hin']; [|auto].
      rewrite String.eqb_refl in E. discriminate.
Qed.

Lemma mapM_app {X Y : Type} (f : X -> M Y) (l1 l2 : list X) (tr : Trace) :
  mapM f (l1 ++ l2)%list tr
  = let (b1, tr1) := mapM f l1 tr in
    let (b2, tr2) := mapM f l2 tr1 in
    ((b1 ++ b2)%list, tr2).
Proof.
  revert tr. induction l1 as [|a l1 IH]; intros tr; simpl.
  - unfold ret. destruct (mapM f l2 tr). reflexivity.
  - unfold bind, ret. destruct (f a tr) as [b tr0]. rewrite IH.
    destruct (mapM f l1 tr0) as [b1 tr1].
    destruct (mapM f l2 tr1) as [b2 tr2]. reflexivity.
Qed.

Lemma mapM_map {X Y Z : Type} (f : X -> M Y) (g : Y -> Z) (h : X -> Z) :
  (forall a tr, g (fst (f a tr)) = h a) ->
  forall l tr, map g (fst (mapM f l tr)) = map h l.
Proof.
  intros H l. induction l as [|a l IH]; intros tr; simpl; [reflexivity|].
  unfold bind, ret. specialize (H a tr).
  destruct (f a tr) as [b tr1]. specialize (IH tr1).
  destruct (mapM f l tr1) as [bs tr2]. simpl in *. now rewrite H, IH.
Qed.

Lemma maskAttributes_keys (attrs : list (string * Value)) (tr : Trace) :
  map fst (fst (maskAttributes mp attrs tr)) = map fst attrs.
Proof.
  unfold maskAttributes. apply mapM_map. intros kv tr0.
  unfold bind, ret. destruct (maskAttribute mp _ _ _ tr0). reflexivity.
Qed.

Lemma maskLogRecord_no_error (lr : LogRecord) (tr : Trace) :
  snd (fst (maskLogRecord mp lr tr)) = None.
Proof.
  rewrite maskLogRecord_run.
  destruct (maskAttributes mp (Attributes lr) tr) as [attrs tr1].
  destruct (maskBody mp (Body lr) tr1). reflexivity.
Qed.

Lemma processLogRecord_keys (lr : LogRecord) (tr : Trace) :
  map fst (Attributes (fst (processLogRecord mp lr tr))) = map fst (Attributes lr).
Proof.
  unfold processLogRecord, bind, ret, logger_Error, emit.
  pose proof (maskAttributes_keys (Attributes lr) tr) as Hk.
  rewrite maskLogRecord_run.
  destruct (maskAttributes mp (Attributes lr) tr) as [attrs tr1].
  destruct (maskBody mp (Body lr) tr1) as [body tr2]. exact Hk.
Qed.

Lemma processLogs_no_error (ld : Logs) (tr : Trace) :
  snd (fst (processLogs mp ld tr)) = None.
Proof.
  unfold processLogs, bind, ret.
  destruct (mapM (mapM (mapM (processLogRecord mp))) ld tr). reflexivity.
Qed.

Lemma processLogs_keys (ld : Logs) (tr : Trace) :
  keys_of_logs (fst (fst (processLogs mp ld tr))) = keys_of_logs ld.
Proof.
  unfold processLogs, bind, ret, keys_of_logs.
  pose proof (mapM_map (mapM (mapM (processLogRecord mp)))
                (map (map (fun lr => map fst (Attributes lr))))
                (map (map (fun lr => map fst (Attributes lr))))) as H.
  specialize (H (fun rl tr1 =>
    mapM_map (mapM (processLogRecord mp))
      (map (fun lr => map fst (Attributes lr)))
      (map (fun lr => map fst (Attributes lr)))
      (fun sl tr2 =>
         mapM_map (processLogRecord mp)
           (fun lr => map fst (Attributes lr))
           (fun lr => map fst (Attributes lr))
           processLogRecord_keys sl tr2) rl tr1) ld tr).
  destruct (mapM (mapM (mapM (processLogRecord mp))) ld tr). exact H.
Qed.

End Engine.

Example maskLogRecord_flaky_username :
  fst (maskLogRecord (sample_mp (client_flaky "mask:attribute_username:alice"))
         (mkLogRecord [("ip_address", ValueStr "10.0.0.1");
                       ("username", ValueStr "alice");
                       ("note", ValueStr "n")]
                      (ValueStr "secret")) [])
  = (mkLogRecord [("ip_address", ValueStr "ip_address-61848699917d");
                  ("username", ValueStr "alice");
                  ("note", ValueStr "n")]
                 (ValueStr "TOK-a78dd2126c3e"), None).
Proof. vm_compute. reflexivity. Qed.

Ltac absurd_body_write :=
  match goal with
  | Hno : forall evs, Forall not_body_write evs -> ~ In _ evs,
    Hin : In _ ?evs, F : Forall not_body_write ?evs |- _ => exact (Hno evs F Hin)
  end.

(** C10. A body that is not of type Str is left as it is, and the body pass
    adds nothing to the trace; a [SetStr] on the body happens only for a
    body of type Str whose masked text differs from the original, and then
    sets that masked text. *)
Theorem maskLogRecord_body_untouched (mp : maskingProcessor) (lr : LogRecord)
    (tr : Trace) :
  (Type_ (Body lr) <> ValueTypeStr ->
   Body (fst (fst (maskLogRecord mp lr tr))) = Body lr
   /\ snd (maskLogRecord mp lr tr) = snd (maskAttributes mp (Attributes lr) tr))
  /\ (forall val,
        In (EvSetStr BodyValue val) (new_events (maskLogRecord mp lr) tr) ->
        Type_ (Body lr) = ValueTypeStr
        /\ val <> Str (Body lr)
        /\ val = fst (maskPatternsInString mp (Str (Body lr))
                        (snd (maskAttributes mp (Attributes lr) tr)))
        /\ Body (fst (fst (maskLogRecord mp lr tr))) = ValueStr val).
Proof.
  split.
  - intros Hty. rewrite maskLogRecord_run.
    destruct (maskAttributes mp (Attributes lr) tr) as [attrs tr1].
    rewrite (maskBody_not_string mp _ tr1 Hty). split; reflexivity.
  - intros val Hin.
    assert (Hno : forall evs, Forall not_body_write evs ->
                              ~ In (EvSetStr BodyValue val) evs).
    { intros evs Hall Hev. rewrite Forall_forall in Hall. exact (Hall _ Hev). }
    destruct (quiet_maskAttributes mp (Attributes lr) tr) as (e1 & H1 & F1).
    pose proof (maskLogRecord_run mp lr tr) as Hrun.
    destruct (maskAttributes mp (Attributes lr) tr) as [attrs tr1].
    simpl in H1. subst tr1. cbn [snd].
    destruct (ValueType_eq_dec (Type_ (Body lr)) ValueTypeStr) as [Hty|Hty].
    + destruct (maskBody_string mp (Body lr) (tr ++ e1)%list Hty)
        as (masked & e2 & Hpat & F2 & Hbody).
      rewrite Hbody in Hrun. rewrite Hpat. cbn [fst].
      destruct (string_dec masked (Str (Body lr))) as [Heq|Hneq].
      * rewrite <- app_assoc in Hrun.
        rewrite (new_events_app _ _ _ _ Hrun) in Hin.
        apply in_app_or in Hin as [Hin|Hin]; exfalso; absurd_body_write.
      * rewrite <- app_assoc in Hrun.
        rewrite (new_events_app _ _ _ _ Hrun) in Hin. rewrite Hrun. cbn [fst Body].
        apply in_app_or in Hin as [Hin|Hin]; [exfalso; absurd_body_write|].
        apply in_app_or in Hin as [Hin|Hin]; [exfalso; absurd_body_write|].
        destruct Hin as [Hin|[]]. injection Hin as <-. auto.
    + rewrite (maskBody_not_string mp _ _ Hty) in Hrun.
      rewrite (new_events_app _ _ _ _ Hrun) in Hin.
      exfalso; absurd_body_write.
Qed.

Lemma maskLogRecord_body_untouched_witness :
  Body (fst (fst (maskLogRecord (sample_mp client_live)
                    (mkLogRecord [("username", ValueStr "alice")]
                                 (mkValue ValueTypeInt "42")) [])))
  = mkValue ValueTypeInt "42".
Proof.
  apply (proj1 (maskLogRecord_body_untouched (sample_mp client_live)
                  (mkLogRecord [("username", ValueStr "alice")]
                               (mkValue ValueTypeInt "42")) [])).
  discriminate.
Defined.

(** * The body masker *)

Section Templates.

Lemma all_chars_app (f : ascii -> bool) (s1 s2 : string) :
  all_chars f (s1 ++ s2) = all_chars f s1 && all_chars f s2.
Proof.
  induction s1 as [|c s1 IH]; simpl; [reflexivity|].
  now rewrite IH, andb_assoc.
Qed.

Lemma all_chars_impl (f g : ascii -> bool) (s : string) :
  (forall c, f c = true -> g c = true) ->
  all_chars f s = true -> all_chars g s = true.
Proof.
  intros Hfg. induction s as [|c s IH]; simpl; [reflexivity|].
  intros H. apply andb_true_iff in H as [Hc Hs].
  now rewrite (Hfg c Hc), (IH Hs).
Qed.

Lemma all_chars_substring_any (f : ascii -> bool) (s : string) (n m : nat) :
  all_chars f s = true -> all_chars f (substring n m s) = true.
Proof.
  revert s m. induction n as [|n IH]; intros s m Hs.
  - now apply all_chars_substring.
  - destruct s as [|c s]; [reflexivity|].
    simpl in *. apply andb_true_iff in Hs as [_ Hs]. now apply IH.
Qed.

Lemma cut_dollar_none (s : string) : no_dollar s = true -> Regexp.cut_dollar s = None.
Proof.
  induction s as [|c s IH]; simpl; [reflexivity|].
  intros H. apply andb_true_iff in H as [Hc Hs].
  destruct (Ascii.eqb c "$"); [discriminate|]. now rewrite (IH Hs).
Qed.

(** A template without a dollar sign expands to itself. *)
Lemma expand_no_dollar (template matched : string) :
  no_dollar template = true -> Regexp.expand template matched = template.
Proof.
  intros H. unfold Regexp.expand. simpl. now rewrite (cut_dollar_none _ H).
Qed.

Lemma ReplaceAllString_literal (lit src repl : string) :
  no_dollar repl = true ->
  Regexp.ReplaceAllString_QuoteMeta lit src repl
  = Regexp.replace_all_literal lit repl src.
Proof.
  intros H. unfold Regexp.ReplaceAllString_QuoteMeta, Regexp.replace_all_literal.
  now rewrite (expand_no_dollar _ _ H).
Qed.

Lemma drop_length (n : nat) (s : string) :
  (String.length (Regexp.drop n s) <= String.length s)%nat.
Proof.
  revert s. induction n as [|n IH]; intros s; simpl; [lia|].
  destruct s as [|c s]; simpl; [lia|]. specialize (IH s). lia.
Qed.

Lemma cut_dollar_length (s before after : string) :
  Regexp.cut_dollar s = Some (before, after) ->
  (String.length after < String.length s)%nat.
Proof.
  revert before. induction s as [|c s IH]; intros before; simpl; [discriminate|].
  destruct (Ascii.eqb c "$").
  - intros H. injection H as _ <-. lia.
  - destruct (Regexp.cut_dollar s) as [[b a]|]; [|discriminate].
    intros H. injection H as _ <-. specialize (IH b eq_refl). lia.
Qed.

Lemma extract_rest_length (str nm rest : string) (num : Z) :
  Regexp.extract str = Some (nm, num, rest) ->
  (String.length rest <= String.length str)%nat.
Proof.
  unfold Regexp.extract. destruct str as [|c0 tail]; [discriminate|].
  set (str1 := if Ascii.eqb c0 "{" then tail else String c0 tail).
  assert (Hlen : (String.length str1 <= String.length (String c0 tail))%nat)
    by (subst str1; destruct (Ascii.eqb c0 "{"); simpl; lia).
  destruct (Regexp.name_len str1) as [|i]; [discriminate|].
  match goal with
  | |- match ?a with _ => _ end = _ -> _ => destruct a as [i'|]; [|discriminate]
  end.
  intros H. injection H as _ _ <-.
  pose proof (drop_length i' str1). lia.
Qed.

(** The fuel [expand] hands out is enough: more of it changes nothing. *)
Lemma expand_fuel_enough (n m : nat) (template matched : string) :
  (String.length template < n)%nat -> (String.length template < m)%nat ->
  Regexp.expand_fuel n template matched = Regexp.expand_fuel m template matched.
Proof.
  revert m template. induction n as [|n IH]; intros m template Hn Hm; [lia|].
  destruct m as [|m]; [lia|]. simpl.
  destruct (Regexp.cut_dollar template) as [[before after]|] eqn:Ecut; [|reflexivity].
  apply cut_dollar_length in Ecut.
  assert (Href :
    match Regexp.extract after with
    | Some (_, num, rest) =>
        (if (num =? 0)%Z then matched else "") ++ Regexp.expand_fuel n rest matched
    | None => String "$" (Regexp.expand_fuel n after matched)
    end
    = match Regexp.extract after with
      | Some (_, num, rest) =>
          (if (num =? 0)%Z then matched else "") ++ Regexp.expand_fuel m rest matched
      | None => String "$" (Regexp.expand_fuel m after matched)
      end).
  { destruct (Regexp.extract after) as [[[nm num] rest]|] eqn:Eext.
    - apply extract_rest_length in Eext. rewrite (IH m rest) by lia. reflexivity.
    - rewrite (IH m after) by lia. reflexivity. }
  f_equal. destruct after as [|c after']; [exact Href|].
  destruct (Ascii.eqb c "$"); [|exact Href].
  simpl in Ecut. rewrite (IH m after') by lia. reflexivity.
Qed.

End Templates.

Section BodyMasker.

Lemma fmt_d_byte_digits (b : Z) :
  (0 <= b < 256)%Z -> all_chars Regexp.is_digit (fmt_d b) = true.
Proof.
  intros Hb.
  assert (Hall : forallb (fun n => all_chars Regexp.is_digit (fmt_d (Z.of_nat n)))
                   (seq 0 256) = true) by (vm_compute; reflexivity).
  rewrite forallb_forall in Hall.
  specialize (Hall (Z.to_nat b)). rewrite Z2Nat.id in Hall by lia.
  apply Hall, in_seq. lia.
Qed.

Lemma digit_not_dollar (c : ascii) :
  Regexp.is_digit c = true -> negb (Ascii.eqb c "$") = true.
Proof.
  intros H. destruct (Ascii.eqb c "$") eqn:E; [|reflexivity].
  apply Ascii.eqb_eq in E. subst c. discriminate.
Qed.

Lemma hex_not_dollar (c : ascii) :
  is_hex_char c = true -> negb (Ascii.eqb c "$") = true.
Proof.
  intros H. destruct (Ascii.eqb c "$") eqn:E; [|reflexivity].
  apply Ascii.eqb_eq in E. subst c. discriminate.
Qed.

Lemma fmt_d_no_dollar (x : Z) : no_dollar (fmt_d (x mod 256)) = true.
Proof.
  apply (all_chars_impl Regexp.is_digit); [exact digit_not_dollar|].
  apply fmt_d_byte_digits, Z.mod_pos_bound. lia.
Qed.

Lemma hex_no_dollar (src : list Z) (n : nat) :
  no_dollar (substring 0 n (Hex.EncodeToString src)) = true.
Proof.
  apply (all_chars_impl is_hex_char); [exact hex_not_dollar|].
  apply all_chars_substring, EncodeToString_hex.
Qed.

Variable mp : maskingProcessor.
Hypothesis Hstore : dollar_free_store (redisClient mp).
Hypothesis Hpatterns : dollar_free_patterns (compiledPatterns mp).

Lemma pattern_prefix_no_dollar (patterns : list compiledPattern) (category : string) :
  (forall p, In p patterns -> In p (compiledPatterns mp)) ->
  no_dollar (pattern_prefix patterns category) = true.
Proof.
  induction patterns as [|p ps IH]; intros Hsub; simpl; [reflexivity|].
  destruct (name p =? category)%string.
  - apply Hpatterns, Hsub. left. reflexivity.
  - apply IH. intros q Hq. apply Hsub. right. exact Hq.
Qed.

Lemma no_dollar_app (s1 s2 : string) :
  no_dollar s1 = true -> no_dollar s2 = true -> no_dollar (s1 ++ s2) = true.
Proof.
  unfold no_dollar. intros H1 H2. now rewrite all_chars_app, H1, H2.
Qed.

Lemma generateMaskedValue_no_dollar (originalValue category : string) :
  no_dollar category = true ->
  no_dollar (generateMaskedValue mp originalValue category) = true.
Proof.
  intros Hcat. unfold generateMaskedValue.
  set (hash := Sha256.Sum256 (bytes_of_string (originalValue ++ category))).
  destruct (category =? "ipv4")%string.
  { repeat (apply no_dollar_app; [first [reflexivity | apply fmt_d_no_dollar]|]).
    apply fmt_d_no_dollar. }
  destruct (category =? "hostname")%string.
  { apply no_dollar_app; [reflexivity|].
    apply no_dollar_app; [apply hex_no_dollar | reflexivity]. }
  apply no_dollar_app; [|apply hex_no_dollar].
  destruct ((10 <? String.length category)%nat
            && (substring 0 10 category =? "attribute_")%string).
  - apply no_dollar_app; [|reflexivity].
    now apply all_chars_substring_any.
  - apply pattern_prefix_no_dollar. auto.
Qed.

Lemma getMaskedValue_no_dollar (originalValue category : string) (tr : Trace) :
  no_dollar category = true ->
  snd (fst (getMaskedValue mp originalValue category tr)) = None ->
  no_dollar (fst (fst (getMaskedValue mp originalValue category tr))) = true.
Proof.
  intros Hcat Hok.
  destruct (reply_err (redisClient mp (commands tr)
                         (Get (forward_key category originalValue)))) as [err|] eqn:E.
  - destruct (error_eq_dec err redis_Nil) as [->|Hne].
    + rewrite (getMaskedValue_miss mp _ _ tr E). simpl.
      now apply generateMaskedValue_no_dollar.
    + rewrite (getMaskedValue_fail mp _ _ tr err E Hne) in Hok. discriminate.
  - rewrite (getMaskedValue_hit mp _ _ tr E). simpl. apply Hstore.
Qed.

Lemma maskMatches_is_literal (pattern : compiledPattern) (matches : list string)
    (result : string) (tr : Trace) :
  In pattern (compiledPatterns mp) ->
  maskMatches mp pattern matches result tr
  = maskMatches_literal mp pattern matches result tr.
Proof.
  intros Hin. revert result tr.
  induction matches as [|m rest IH]; intros result tr; simpl; [reflexivity|].
  unfold bind at 1 3.
  pose proof (getMaskedValue_no_dollar m (name pattern) tr
                (proj1 (Hpatterns pattern Hin))) as Hnd.
  destruct (getMaskedValue mp m (name pattern) tr) as [[val err] tr1].
  simpl in *. destruct err as [err|].
  - unfold bind, logger_Error, emit. apply IH.
  - rewrite (ReplaceAllString_literal _ _ _ (Hnd eq_refl)). apply IH.
Qed.

Lemma maskPatterns_is_literal (patterns : list compiledPattern) (result : string)
    (tr : Trace) :
  (forall p, In p patterns -> In p (compiledPatterns mp)) ->
  maskPatterns mp patterns result tr = maskPatterns_literal mp patterns result tr.
Proof.
  revert result tr. induction patterns as [|p ps IH]; intros result tr Hsub;
    simpl; [reflexivity|].
  unfold bind. rewrite maskMatches_is_literal by (apply Hsub; left; reflexivity).
  destruct (maskMatches_literal mp p (regex p result) result tr) as [result' tr1].
  apply IH. intros q Hq. apply Hsub. right. exact Hq.
Qed.

(** Where no dollar sign can reach a masked value, the body masker does
    what the specification says: literal replacement, pattern by pattern
    and match by match. *)
Lemma maskPatternsInString_is_literal (text : string) (tr : Trace) :
  maskPatternsInString mp text tr = maskBody_as_specified mp text tr.
Proof.
  unfold maskPatternsInString, maskBody_as_specified.
  apply maskPatterns_is_literal. auto.
Qed.

End BodyMasker.

(** C7, where the code departs from it. With the masked prefix "$MASKED_"
    the value obtained for the match "secret" is "$MASKED_a78dd2126c3e";
    replacing the match by that text would give "id=$MASKED_a78dd2126c3e",
    but [ReplaceAllString] reads the value as a template, finds a reference
    to a group that does not exist, and the body comes out as "id=". *)
Theorem maskPatternsInString_expands_dollar :
  fst (getMaskedValue dollar_mp "secret" "token" []) = ("$MASKED_a78dd2126c3e", None)
  /\ fst (maskBody_as_specified dollar_mp "id=secret" []) = "id=$MASKED_a78dd2126c3e"
  /\ fst (maskPatternsInString dollar_mp "id=secret" []) = "id=".
Proof. repeat split; vm_compute; reflexivity. Qed.

(** * Further properties: keys, configuration, construction *)

Section Keys.

Lemma colon_split (c1 c2 o1 o2 : string) :
  no_colon c1 = true -> no_colon c2 = true ->
  c1 ++ ":" ++ o1 = c2 ++ ":" ++ o2 -> c1 = c2 /\ o1 = o2.
Proof.
  revert c2. induction c1 as [|a c1 IH]; intros [|b c2] H1 H2 Heq; simpl in *.
  - injection Heq as ->. auto.
  - injection Heq as <- _. discriminate.
  - injection Heq as -> _. discriminate.
  - injection Heq as <- Heq.
    apply andb_true_iff in H1 as [_ H1]. apply andb_true_iff in H2 as [_ H2].
    destruct (IH c2 H1 H2 Heq) as [-> ->]. auto.
Qed.

Lemma forward_reverse_keys_differ (c1 o c2 masked : string) :
  (reverse_key c2 masked =? forward_key c1 o)%string = false.
Proof. reflexivity. Qed.

End Keys.

(** X1. Two (category, original) pairs whose categories contain no colon
    have the same forward key only when they are the same pair. *)
Theorem forward_key_injective (c1 o1 c2 o2 : string) :
  no_colon c1 = true -> no_colon c2 = true ->
  forward_key c1 o1 = forward_key c2 o2 -> c1 = c2 /\ o1 = o2.
Proof.
  intros H1 H2 Heq. unfold forward_key in Heq.
  simpl in Heq. injection Heq as Heq.
  exact (colon_split _ _ _ _ H1 H2 Heq).
Qed.

Lemma forward_key_injective_witness :
  "token" = "token" /\ "secret" = "secret".
Proof.
  apply (forward_key_injective "token" "secret" "token" "secret");
    reflexivity.
Defined.

Section Ttl.

Lemma wrap64_small (x : Z) :
  (- 2 ^ 63 <= x < 2 ^ 63)%Z -> wrap64 x = x.
Proof. intros H. unfold wrap64. rewrite Z.mod_small; lia. Qed.

Lemma wrap64_range (x : Z) : (- 2 ^ 63 <= wrap64 x < 2 ^ 63)%Z.
Proof.
  unfold wrap64.
  pose proof (Z.mod_pos_bound (x + 2 ^ 63) (2 ^ 64) ltac:(lia)). lia.
Qed.

End Ttl.

(** X2. The expiration of the two writes: zero for a TTL of zero or less;
    the TTL in nanoseconds, and positive, for a TTL from 1 to 9223372036
    seconds; and for a larger TTL (below 2^63) the multiplication wraps, so
    the expiration is not the TTL in nanoseconds. *)
Theorem token_ttl_bounds (cfg : Config) :
  ((TokenTTL cfg <= 0)%Z -> token_ttl cfg = 0%Z)
  /\ ((0 < TokenTTL cfg <= 9223372036)%Z ->
      token_ttl cfg = (TokenTTL cfg * 1000000000)%Z /\ (0 < token_ttl cfg)%Z)
  /\ ((9223372036 < TokenTTL cfg < 2 ^ 63)%Z ->
      token_ttl cfg <> (TokenTTL cfg * 1000000000)%Z).
Proof.
  unfold token_ttl, time_Second. repeat split.
  - intros H. destruct (0 <? TokenTTL cfg)%Z eqn:E; [|reflexivity].
    apply Z.ltb_lt in E. lia.
  - destruct H as [H1 H2]. apply Z.ltb_lt in H1. rewrite H1.
    apply wrap64_small. lia.
  - destruct H as [H1 H2]. pose proof H1 as H1'. apply Z.ltb_lt in H1'. rewrite H1'.
    rewrite wrap64_small; lia.
  - intros [H1 H2].
    assert (Hpos : (0 <? TokenTTL cfg)%Z = true) by (apply Z.ltb_lt; lia).
    rewrite Hpos.
    pose proof (wrap64_range (TokenTTL cfg * 1000000000)). lia.
Qed.

Lemma token_ttl_bounds_witness :
  token_ttl sample_config = (3600 * 1000000000)%Z /\ (0 < token_ttl sample_config)%Z.
Proof.
  apply (proj1 (proj2 (token_ttl_bounds sample_config))).
  simpl. lia.
Defined.

(** X3. [Validate] returns an error exactly when the TTL is negative; the
    address it leaves is never empty (it is the default when it was empty
    and unchanged otherwise, also when an error is returned); no other
    field is touched; and validating the result again changes nothing. *)
Theorem Validate_spec (cfg : Config) :
  (snd (Validate cfg) = None <-> (0 <= TokenTTL cfg)%Z)
  /\ RedisAddr (fst (Validate cfg)) <> ""
  /\ RedisAddr (fst (Validate cfg))
     = (if (RedisAddr cfg =? "")%string then "localhost:6379" else RedisAddr cfg)
  /\ (RedisPassword (fst (Validate cfg)), RedisDB (fst (Validate cfg)),
      TokenTTL (fst (Validate cfg)), FieldsToMask (fst (Validate cfg)),
      Patterns (fst (Validate cfg)))
     = (RedisPassword cfg, RedisDB cfg, TokenTTL cfg, FieldsToMask cfg, Patterns cfg)
  /\ Validate (fst (Validate cfg)) = Validate cfg.
Proof.
  destruct cfg as [addr pw db ttl fields pats]. unfold Validate.
  cbn [RedisAddr RedisPassword RedisDB TokenTTL FieldsToMask Patterns].
  destruct (addr =? "")%string eqn:Ea;
    cbn [RedisAddr RedisPassword RedisDB TokenTTL FieldsToMask Patterns];
    destruct (ttl <? 0)%Z eqn:Et;
    cbn [fst snd RedisAddr RedisPassword RedisDB TokenTTL FieldsToMask Patterns];
    change (("localhost:6379" =? "")%string) with false;
    rewrite ?Ea; cbn [TokenTTL]; rewrite ?Et;
    (apply Z.ltb_lt in Et || apply Z.ltb_ge in Et);
    (split; [split; [intros; (discriminate || lia) | intros; (reflexivity || lia)]|]);
    (split; [first [discriminate | apply String.eqb_neq; exact Ea]|]);
    repeat split; reflexivity.
Qed.

Section Construction.

Variable Compile : string -> Regexp.Regexp + SyntaxError.

Lemma compilePatterns_ok (patterns : list PatternConfig)
    (compiled : list compiledPattern) :
  compilePatterns Compile patterns = inl compiled ->
  map (fun p => (name p, maskedPrefix p)) compiled
  = map (fun pc => (Name pc, MaskedPrefix pc)) patterns
  /\ Forall2 (fun pc p => Compile (Regex pc) = inl (regex p)) patterns compiled.
Proof.
  revert compiled. induction patterns as [|pc rest IH]; intros compiled H; simpl in H.
  - injection H as <-. split; constructor.
  - destruct (Compile (Regex pc)) as [re|err] eqn:E; [|discriminate].
    destruct (compilePatterns Compile rest) as [cs|err]; [|discriminate].
    injection H as <-. destruct (IH cs eq_refl) as [Hmap Hall].
    split; [simpl; now rewrite Hmap | constructor; assumption].
Qed.

Lemma compilePatterns_error (patterns : list PatternConfig) (e : ConstructionError) :
  compilePatterns Compile patterns = inr e ->
  exists before pc after err,
    patterns = (before ++ pc :: after)%list
    /\ Forall (fun q => exists re, Compile (Regex q) = inl re) before
    /\ Compile (Regex pc) = inr err
    /\ e = Errorf_syntax ("failed to compile regex pattern '" ++ Name pc ++ "': ") err.
Proof.
  induction patterns as [|pc rest IH]; intros H; simpl in H; [discriminate|].
  destruct (Compile (Regex pc)) as [re|err] eqn:E.
  - destruct (compilePatterns Compile rest) as [cs|err]; [discriminate|].
    injection H as <-.
    destruct (IH eq_refl) as (before & q & after & err' & -> & Hall & Hq & He).
    exists (pc :: before), q, after, err'. repeat split; auto.
    constructor; [eexists; exact E | exact Hall].
  - injection H as <-. exists [], pc, rest, err. repeat split; auto.
Qed.

End Construction.

(** X4. [newMaskingProcessor] either builds a processor that keeps the
    configuration and has one compiled pattern per configured pattern, in
    order, with its name, its prefix and the compiled form of its
    expression; or it fails with the error of the first pattern, in order,
    whose expression does not compile, wrapped with that pattern's name. *)
Theorem newMaskingProcessor_spec (Compile : string -> Regexp.Regexp + SyntaxError)
    (client : Client) (cfg : Config) :
  match newMaskingProcessor Compile client cfg with
  | inl mp =>
      config mp = cfg
      /\ redisClient mp = client
      /\ pattern_table mp = map (fun pc => (Name pc, MaskedPrefix pc)) (Patterns cfg)
      /\ Forall2 (fun pc p => Compile (Regex pc) = inl (regex p))
           (Patterns cfg) (compiledPatterns mp)
  | inr e =>
      exists before pc after err,
        Patterns cfg = (before ++ pc :: after)%list
        /\ Forall (fun q => exists re, Compile (Regex q) = inl re) before
        /\ Compile (Regex pc) = inr err
        /\ e = Errorf_syntax ("failed to compile regex pattern '" ++ Name pc ++ "': ") err
  end.
Proof.
  unfold newMaskingProcessor.
  destruct (compilePatterns Compile (Patterns cfg)) as [compiled|e] eqn:E.
  - destruct (compilePatterns_ok Compile _ _ E) as [Hmap Hall].
    repeat split; assumption.
  - exact (compilePatterns_error Compile _ _ E).
Qed.

(** X5. For the category "hostname" the result is "host-", eight lower-case
    hex characters that are the first eight of the token's twelve, and
    ".masked.local": 26 characters, whatever patterns and prefixes are
    configured. *)
Theorem generateMaskedValue_hostname (mp : maskingProcessor) (originalValue : string) :
  let h := substring 0 8 (hex12 originalValue "hostname") in
  generateMaskedValue mp originalValue "hostname" = "host-" ++ h ++ ".masked.local"
  /\ String.length h = 8%nat
  /\ all_chars is_hex_char h = true
  /\ String.length (generateMaskedValue mp originalValue "hostname") = 26%nat.
Proof.
  intros h.
  assert (Hlen : String.length h = 8%nat).
  { apply substring_0_length. rewrite hex12_length. lia. }
  assert (Hval : generateMaskedValue mp originalValue "hostname"
                 = "host-" ++ h ++ ".masked.local").
  { unfold generateMaskedValue.
    change (("hostname" =? "ipv4")%string) with false.
    change (("hostname" =? "hostname")%string) with true. cbv iota.
    subst h. unfold hex12. do 2 f_equal; reflexivity. }
  split; [exact Hval|]. split; [exact Hlen|]. split.
  - apply all_chars_substring, hex12_hex.
  - rewrite Hval, !append_length, Hlen. reflexivity.
Qed.

(** X6. The marker alone is not an attribute category: for the category
    "attribute_" (an attribute with the empty key) the result is the prefix
    of the first pattern named "attribute_", or no prefix, followed by the
    twelve hex characters; there is no dash. *)
Theorem generateMaskedValue_bare_marker (mp : maskingProcessor) (originalValue : string) :
  generateMaskedValue mp originalValue "attribute_"
  = pattern_prefix (compiledPatterns mp) "attribute_" ++ hex12 originalValue "attribute_"
  /\ ((forall p, In p (compiledPatterns mp) -> name p <> "attribute_") ->
      generateMaskedValue mp originalValue "attribute_" = hex12 originalValue "attribute_").
Proof.
  assert (H : generateMaskedValue mp originalValue "attribute_"
              = pattern_prefix (compiledPatterns mp) "attribute_"
                ++ hex12 originalValue "attribute_") by reflexivity.
  split; [exact H|].
  intros Hnone. rewrite H, pattern_prefix_find.
  destruct (find (fun p => (name p =? "attribute_")%string) (compiledPatterns mp))
    as [q|] eqn:E; [|reflexivity].
  apply find_some in E as [Hq Hqn]. apply String.eqb_eq in Hqn.
  exfalso. exact (Hnone q Hq Hqn).
Qed.

Lemma generateMaskedValue_bare_marker_witness :
  generateMaskedValue (sample_mp client_down) "alice" "attribute_"
  = hex12 "alice" "attribute_".
Proof.
  apply (proj2 (generateMaskedValue_bare_marker (sample_mp client_down) "alice")).
  intros p [<-|[<-|[]]]; discriminate.
Defined.

(** * Further properties: the token store on a working server *)

Section LiveStore.

Variable cfg : Config.
Variable patterns : list compiledPattern.

Let mp : maskingProcessor := live_mp cfg patterns.

Lemma getMaskedValue_live_hit (originalValue category v : string) (tr : Trace) :
  stored (rev (commands tr)) (forward_key category originalValue) = Some v ->
  getMaskedValue mp originalValue category tr
  = ((v, None), (tr ++ [EvRedis (Get (forward_key category originalValue))])%list).
Proof.
  intros H.
  pose proof (getMaskedValue_hit mp originalValue category tr) as Hhit.
  cbv zeta in Hhit. unfold mp, live_mp in Hhit. cbn [redisClient client_live] in Hhit.
  rewrite H in Hhit. exact (Hhit eq_refl).
Qed.

Lemma getMaskedValue_live_miss (originalValue category : string) (tr : Trace) :
  stored (rev (commands tr)) (forward_key category originalValue) = None ->
  getMaskedValue mp originalValue category tr
  = ((generateMaskedValue mp originalValue category, None),
     (tr ++ [EvRedis (Get (forward_key category originalValue));
             EvRedis (Set_ (forward_key category originalValue)
                        (generateMaskedValue mp originalValue category)
                        (token_ttl cfg));
             EvRedis (Set_ (reverse_key category
                              (generateMaskedValue mp originalValue category))
                        originalValue (token_ttl cfg))])%list).
Proof.
  intros H.
  pose proof (getMaskedValue_miss mp originalValue category tr) as Hmiss.
  cbv zeta in Hmiss. unfold mp, live_mp in Hmiss.
  cbn [redisClient client_live config] in Hmiss.
  rewrite H in Hmiss. exact (Hmiss eq_refl).
Qed.

(** After a call the store holds, under the forward key, the value the call
    returned. *)
Lemma getMaskedValue_live_stored (originalValue category : string) (tr : Trace) :
  snd (fst (getMaskedValue mp originalValue category tr)) = None
  /\ stored (rev (commands (snd (getMaskedValue mp originalValue category tr))))
       (forward_key category originalValue)
     = Some (fst (fst (getMaskedValue mp originalValue category tr))).
Proof.
  destruct (stored (rev (commands tr)) (forward_key category originalValue))
    as [v|] eqn:E.
  - rewrite (getMaskedValue_live_hit _ _ _ _ E). cbn [fst snd].
    split; [reflexivity|].
    rewrite commands_app, rev_app_distr. exact E.
  - rewrite (getMaskedValue_live_miss _ _ _ E). cbn [fst snd].
    split; [reflexivity|].
    rewrite commands_app, rev_app_distr. cbn [commands rev app stored].
    rewrite forward_reverse_keys_differ, String.eqb_refl. reflexivity.
Qed.

End LiveStore.

(** X7. On a working store the token is stable: a call never fails, and
    the same call made right after it returns the same value and sends
    nothing but the read. *)
Theorem getMaskedValue_live_stable (cfg : Config) (patterns : list compiledPattern)
    (originalValue category : string) (tr : Trace) :
  let mp := live_mp cfg patterns in
  let first := getMaskedValue mp originalValue category tr in
  snd (fst first) = None
  /\ getMaskedValue mp originalValue category (snd first)
     = ((fst (fst first), None),
        (snd first ++ [EvRedis (Get (forward_key category originalValue))])%list).
Proof.
  intros mp first. subst first mp.
  destruct (getMaskedValue_live_stored cfg patterns originalValue category tr)
    as [Hok Hst].
  split; [exact Hok|].
  exact (getMaskedValue_live_hit cfg patterns _ _ _ _ Hst).
Qed.

(** X8. The store cannot tell apart two pairs with one forward key: on a
    working store, the pair asked second receives the value the first
    received, not a value of its own. A colon in the category is enough
    for two pairs to share a key. *)
Theorem forward_key_collision_shares_token (cfg : Config)
    (patterns : list compiledPattern) (o1 c1 o2 c2 : string) (tr : Trace) :
  let mp := live_mp cfg patterns in
  forward_key c1 o1 = forward_key c2 o2 ->
  fst (getMaskedValue mp o2 c2 (snd (getMaskedValue mp o1 c1 tr)))
  = fst (getMaskedValue mp o1 c1 tr).
Proof.
  intros mp Hkey. subst mp.
  destruct (getMaskedValue_live_stored cfg patterns o1 c1 tr) as [Hok Hst].
  rewrite Hkey in Hst.
  rewrite (getMaskedValue_live_hit cfg patterns _ _ _ _ Hst). cbn [fst].
  destruct (getMaskedValue (live_mp cfg patterns) o1 c1 tr) as [[v e] tr1].
  cbn [fst snd] in *. now rewrite Hok.
Qed.

Lemma forward_key_collision_shares_token_witness :
  forward_key "a" "b:c" = forward_key "a:b" "c"
  /\ fst (getMaskedValue (live_mp sample_config sample_patterns) "c" "a:b"
            (snd (getMaskedValue (live_mp sample_config sample_patterns) "b:c" "a" [])))
     = fst (getMaskedValue (live_mp sample_config sample_patterns) "b:c" "a" []).
Proof.
  split; [reflexivity|].
  apply (forward_key_collision_shares_token sample_config sample_patterns
           "b:c" "a" "c" "a:b" []).
  reflexivity.
Defined.

(** X9. Reverse lookup: when the store holds nothing under the forward key,
    then after the call a read of the reverse key of the returned value
    yields the original, and a read of the forward key yields the returned
    value. *)
Theorem getMaskedValue_live_round_trip (cfg : Config)
    (patterns : list compiledPattern) (originalValue category : string) (tr : Trace) :
  let mp := live_mp cfg patterns in
  let masked := generateMaskedValue mp originalValue category in
  stored (rev (commands tr)) (forward_key category originalValue) = None ->
  fst (getMaskedValue mp originalValue category tr) = (masked, None)
  /\ client_live (commands (snd (getMaskedValue mp originalValue category tr)))
       (Get (reverse_key category masked))
     = mkReply originalValue None
  /\ client_live (commands (snd (getMaskedValue mp originalValue category tr)))
       (Get (forward_key category originalValue))
     = mkReply masked None.
Proof.
  intros mp masked H. subst mp masked.
  rewrite (getMaskedValue_live_miss cfg patterns _ _ _ H). cbn [fst snd].
  split; [reflexivity|].
  unfold client_live. rewrite commands_app, rev_app_distr.
  cbn [commands rev app stored].
  rewrite String.eqb_refl, forward_reverse_keys_differ, String.eqb_refl.
  split; reflexivity.
Qed.

Lemma getMaskedValue_live_round_trip_witness :
  client_live
    (commands (snd (getMaskedValue (live_mp sample_config sample_patterns)
                      "alice" "attribute_username" [])))
    (Get (reverse_key "attribute_username"
            (generateMaskedValue (live_mp sample_config sample_patterns)
               "alice" "attribute_username")))
  = mkReply "alice" None.
Proof.
  apply (proj1 (proj2 (getMaskedValue_live_round_trip sample_config sample_patterns
                         "alice" "attribute_username" [] eq_refl))).
Defined.

Example forward_key_collision_tokens_differ :
  generateMaskedValue (live_mp sample_config sample_patterns) "c" "a:b"
  <> generateMaskedValue (live_mp sample_config sample_patterns) "b:c" "a".
Proof. vm_compute. discriminate. Qed.

(** * Further properties: the engine *)

Section EngineFacts.

Variable mp : maskingProcessor.

Lemma new_events_snd {A : Type} (m : M A) (tr evs : Trace) :
  snd (m tr) = (tr ++ evs)%list -> new_events m tr = evs.
Proof.
  intros H. unfold new_events. rewrite H.
  rewrite skipn_app, Nat.sub_diag, skipn_all. reflexivity.
Qed.

Lemma read_keys_app (tr1 tr2 : Trace) :
  read_keys (tr1 ++ tr2)%list = (read_keys tr1 ++ read_keys tr2)%list.
Proof.
  induction tr1 as [|e tr1 IH]; simpl; [reflexivity|].
  destruct e as [[key|key value ttl]|msg fields|target val]; simpl; now rewrite IH.
Qed.

Lemma read_keys_store_failure_log (r : Reply) : read_keys (store_failure_log r) = [].
Proof. unfold store_failure_log. destruct (reply_err r); reflexivity. Qed.

Lemma getMaskedValue_read_keys (originalValue category : string) (tr : Trace) :
  exists evs,
    snd (getMaskedValue mp originalValue category tr) = (tr ++ evs)%list
    /\ read_keys evs = [forward_key category originalValue].
Proof.
  destruct (reply_err (redisClient mp (commands tr)
                         (Get (forward_key category originalValue)))) as [err|] eqn:E.
  - destruct (error_eq_dec err redis_Nil) as [->|Hne].
    + rewrite (getMaskedValue_miss mp _ _ tr E). eexists. split; [reflexivity|].
      cbn [app read_keys]. rewrite read_keys_app, read_keys_store_failure_log.
      reflexivity.
    + rewrite (getMaskedValue_fail mp _ _ tr err E Hne). eexists.
      split; reflexivity.
  - rewrite (getMaskedValue_hit mp _ _ tr E). eexists. split; reflexivity.
Qed.

Lemma maskMatches_trace (pattern : compiledPattern) (matches : list string)
    (result : string) (tr : Trace) :
  exists evs,
    snd (maskMatches mp pattern matches result tr) = (tr ++ evs)%list
    /\ read_keys evs = map (forward_key (name pattern)) matches.
Proof.
  revert result tr. induction matches as [|m rest IH]; intros result tr; simpl.
  - exists []. unfold ret. simpl. now rewrite app_nil_r.
  - unfold bind at 1.
    destruct (getMaskedValue_read_keys m (name pattern) tr) as (e1 & H1 & K1).
    destruct (getMaskedValue mp m (name pattern) tr) as [[val err] tr1].
    cbn [fst snd] in *. subst tr1.
    destruct err as [err|].
    + unfold bind at 1, logger_Error, emit.
      match goal with
      | |- context [maskMatches mp pattern rest result ?t] =>
          destruct (IH result t) as (e2 & H2 & K2)
      end.
      rewrite H2. eexists. rewrite <- !app_assoc. split; [reflexivity|].
      rewrite !read_keys_app, K1, K2. reflexivity.
    + match goal with
      | |- context [maskMatches mp pattern rest ?r ?t] =>
          destruct (IH r t) as (e2 & H2 & K2)
      end.
      rewrite H2. eexists. rewrite <- !app_assoc. split; [reflexivity|].
      rewrite !read_keys_app, K1, K2. reflexivity.
Qed.

Lemma getMaskedValue_reads_fail (originalValue category : string) (tr : Trace) :
  reads_fail (redisClient mp) ->
  exists err,
    getMaskedValue mp originalValue category tr
    = (("", Some (Errorf_w "redis get error: " err)),
       (tr ++ [EvRedis (Get (forward_key category originalValue))])%list).
Proof.
  intros Hfail.
  destruct (Hfail (commands tr) (forward_key category originalValue))
    as (err & Herr & Hne).
  exists err. exact (getMaskedValue_fail mp _ _ tr err Herr Hne).
Qed.

Lemma maskMatches_reads_fail (pattern : compiledPattern) (matches : list string)
    (result : string) (tr : Trace) :
  reads_fail (redisClient mp) ->
  exists evs,
    maskMatches mp pattern matches result tr = (result, (tr ++ evs)%list)
    /\ Forall read_or_log evs.
Proof.
  intros Hfail. revert tr. induction matches as [|m rest IH]; intros tr; simpl.
  - exists []. unfold ret. rewrite app_nil_r. split; constructor.
  - destruct (getMaskedValue_reads_fail m (name pattern) tr Hfail) as (err & Hrun).
    rewrite (bind_run _ _ _ _ _ Hrun). cbn [snd fst].
    unfold bind at 1, logger_Error, emit.
    match goal with
    | |- context [maskMatches mp pattern rest result ?t] =>
        destruct (IH t) as (evs & H2 & F2)
    end.
    rewrite H2. eexists. rewrite <- !app_assoc. split; [reflexivity|].
    simpl. repeat constructor. exact F2.
Qed.

Lemma maskPatterns_reads_fail (patterns : list compiledPattern) (text : string)
    (tr : Trace) :
  reads_fail (redisClient mp) ->
  exists evs,
    maskPatterns mp patterns text tr = (text, (tr ++ evs)%list)
    /\ Forall read_or_log evs.
Proof.
  intros Hfail. revert tr. induction patterns as [|p ps IH]; intros tr; simpl.
  - exists []. unfold ret. rewrite app_nil_r. split; constructor.
  - destruct (maskMatches_reads_fail p (regex p text) text tr Hfail) as (e1 & H1 & F1).
    rewrite (bind_run _ _ _ _ _ H1).
    destruct (IH (tr ++ e1)%list) as (e2 & H2 & F2).
    rewrite H2. exists (e1 ++ e2)%list. rewrite app_assoc. split; [reflexivity|].
    apply Forall_app; auto.
Qed.

Lemma maskAttribute_reads_fail (k : string) (fields : list string) (v : Value)
    (tr : Trace) :
  reads_fail (redisClient mp) ->
  exists evs,
    maskAttribute mp k fields v tr = (v, (tr ++ evs)%list) /\ Forall read_or_log evs.
Proof.
  intros Hfail.
  destruct (maskAttribute_read_fails mp k fields v tr
              (fun history => Hfail history _)) as (evs & Hrun & Hall & _).
  exists evs. split; [exact Hrun|].
  eapply Forall_impl; [|exact Hall].
  intros e [->|(err & ->)]; exact I.
Qed.

Lemma mapM_passthrough {X : Type} (f : X -> M X) (P : Event -> Prop) :
  (forall a tr, exists evs, f a tr = (a, (tr ++ evs)%list) /\ Forall P evs) ->
  forall l tr, exists evs, mapM f l tr = (l, (tr ++ evs)%list) /\ Forall P evs.
Proof.
  intros Hf l. induction l as [|a l IH]; intros tr; simpl.
  - exists []. unfold ret. rewrite app_nil_r. split; constructor.
  - destruct (Hf a tr) as (e1 & H1 & F1). rewrite (bind_run _ _ _ _ _ H1).
    destruct (IH (tr ++ e1)%list) as (e2 & H2 & F2).
    rewrite (bind_run _ _ _ _ _ H2). unfold ret.
    exists (e1 ++ e2)%list. rewrite app_assoc. split; [reflexivity|].
    apply Forall_app; auto.
Qed.

Lemma maskLogRecord_reads_fail (lr : LogRecord) (tr : Trace) :
  reads_fail (redisClient mp) ->
  exists evs,
    maskLogRecord mp lr tr = ((lr, None), (tr ++ evs)%list) /\ Forall read_or_log evs.
Proof.
  intros Hfail. rewrite maskLogRecord_run.
  assert (Hattrs : exists evs, maskAttributes mp (Attributes lr) tr
                               = (Attributes lr, (tr ++ evs)%list)
                               /\ Forall read_or_log evs).
  { unfold maskAttributes. apply mapM_passthrough. intros [k v] tr0. cbn [fst snd].
    destruct (maskAttribute_reads_fail k (FieldsToMask (config mp)) v tr0 Hfail)
      as (evs & Hrun & Hall).
    exists evs. rewrite (bind_run _ _ _ _ _ Hrun). split; [reflexivity | exact Hall]. }
  destruct Hattrs as (e1 & H1 & F1). rewrite H1.
  unfold maskBody.
  destruct (ValueType_eq_dec (Type_ (Body lr)) ValueTypeStr).
  - destruct (maskPatterns_reads_fail (compiledPatterns mp) (Str (Body lr))
                (tr ++ e1)%list Hfail) as (e2 & H2 & F2).
    fold (maskPatternsInString mp (Str (Body lr))) in H2.
    rewrite (bind_run _ _ _ _ _ H2).
    destruct (string_dec (Str (Body lr)) (Str (Body lr))) as [_|Hne]; [|contradiction].
    unfold ret. exists (e1 ++ e2)%list. rewrite app_assoc.
    destruct lr. split; [reflexivity | apply Forall_app; auto].
  - unfold ret. exists e1. destruct lr. split; [reflexivity | exact F1].
Qed.

Lemma maskAttribute_unlisted (k : string) (fields : list string) (v : Value)
    (tr : Trace) :
  ~ In k fields -> maskAttribute mp k fields v tr = (v, tr).
Proof.
  induction fields as [|f rest IH]; intros Hnot; simpl; [reflexivity|].
  destruct (k =? f)%string eqn:E.
  - apply String.eqb_eq in E. exfalso. apply Hnot. left. auto.
  - apply IH. intros Hin. apply Hnot. right. exact Hin.
Qed.

Lemma mapM_nth {X Y : Type} (f : X -> M Y) (l : list X) (tr : Trace) (i : nat) (a : X) :
  nth_error l i = Some a ->
  exists tr0, nth_error (fst (mapM f l tr)) i = Some (fst (f a tr0)).
Proof.
  revert tr i. induction l as [|b l IH]; intros tr i H; [destruct i; discriminate|].
  simpl. unfold bind, ret.
  destruct (f b tr) as [y tr1] eqn:Eb.
  destruct i as [|i]; simpl in H.
  - injection H as <-. exists tr. destruct (mapM f l tr1). simpl. now rewrite Eb.
  - destruct (IH tr1 i H) as (tr0 & Hn). exists tr0.
    destruct (mapM f l tr1). exact Hn.
Qed.

Lemma getMaskedValue_reads_miss (originalValue category : string) (tr : Trace) :
  reads_miss (redisClient mp) ->
  fst (getMaskedValue mp originalValue category tr)
  = (generateMaskedValue mp originalValue category, None).
Proof.
  intros Hmiss. now rewrite (getMaskedValue_miss mp _ _ tr (Hmiss _ _)).
Qed.

End EngineFacts.

(** X10. With every read failing, [maskPatternsInString] returns the text
    as it was given, for every pattern set; all it does is read and log: no
    write reaches the store. *)
Theorem maskPatternsInString_reads_fail (mp : maskingProcessor) (text : string)
    (tr : Trace) :
  reads_fail (redisClient mp) ->
  exists evs,
    maskPatternsInString mp text tr = (text, (tr ++ evs)%list)
    /\ Forall read_or_log evs.
Proof.
  intros Hfail. unfold maskPatternsInString.
  now apply maskPatterns_reads_fail.
Qed.

Lemma maskPatternsInString_reads_fail_witness :
  reads_fail (redisClient (sample_mp client_down))
  /\ exists evs,
      maskPatternsInString (sample_mp client_down) "from 192.168.1.1 with secret" []
      = ("from 192.168.1.1 with secret", ([] ++ evs)%list)
      /\ Forall read_or_log evs.
Proof.
  assert (Hfail : reads_fail (redisClient (sample_mp client_down))).
  { intros history key. eexists. split; [reflexivity | discriminate]. }
  split; [exact Hfail|].
  apply (maskPatternsInString_reads_fail (sample_mp client_down)
           "from 192.168.1.1 with secret" [] Hfail).
Defined.

(** X11. With every read failing, [processLogs] hands back the batch it was
    given, unmasked, with a nil error; all it does is read and log. *)
Theorem processLogs_reads_fail (mp : maskingProcessor) (ld : Logs) (tr : Trace) :
  reads_fail (redisClient mp) ->
  exists evs,
    processLogs mp ld tr = ((ld, None), (tr ++ evs)%list)
    /\ Forall read_or_log evs.
Proof.
  intros Hfail. unfold processLogs.
  assert (Hall : exists evs,
             mapM (mapM (mapM (processLogRecord mp))) ld tr = (ld, (tr ++ evs)%list)
             /\ Forall read_or_log evs).
  { apply mapM_passthrough. intros rl tr1.
    apply mapM_passthrough. intros sl tr2.
    apply mapM_passthrough. intros lr tr3.
    destruct (maskLogRecord_reads_fail mp lr tr3 Hfail) as (evs & Hrun & Hev).
    exists evs. unfold processLogRecord.
    rewrite (bind_run _ _ _ _ _ Hrun). split; [reflexivity | exact Hev]. }
  destruct Hall as (evs & Hrun & Hev).
  exists evs. rewrite (bind_run _ _ _ _ _ Hrun). split; [reflexivity | exact Hev].
Qed.

Lemma processLogs_reads_fail_witness :
  reads_fail (redisClient (sample_mp client_down))
  /\ exists evs,
      processLogs (sample_mp client_down)
        [[[mkLogRecord [("username", ValueStr "alice")] (ValueStr "secret")]]] []
      = (([[[mkLogRecord [("username", ValueStr "alice")] (ValueStr "secret")]]], None),
         ([] ++ evs)%list)
      /\ Forall read_or_log evs.
Proof.
  assert (Hfail : reads_fail (redisClient (sample_mp client_down))).
  { intros history key. eexists. split; [reflexivity | discriminate]. }
  split; [exact Hfail|].
  apply (processLogs_reads_fail (sample_mp client_down)
           [[[mkLogRecord [("username", ValueStr "alice")] (ValueStr "secret")]]]
           [] Hfail).
Defined.

(** X12. An attribute whose key is not in [FieldsToMask] comes out of
    [maskLogRecord] at the same position with the same value, whatever
    happens to the other attributes and whatever the store answers. *)
Theorem maskLogRecord_unlisted_attribute (mp : maskingProcessor) (lr : LogRecord)
    (tr : Trace) (i : nat) (k : string) (v : Value) :
  nth_error (Attributes lr) i = Some (k, v) ->
  ~ In k (FieldsToMask (config mp)) ->
  nth_error (Attributes (fst (fst (maskLogRecord mp lr tr)))) i = Some (k, v).
Proof.
  intros Hnth Hnot. rewrite maskLogRecord_run.
  pose proof (mapM_nth
                (fun kv => bind (maskAttribute mp (fst kv) (FieldsToMask (config mp)) (snd kv))
                             (fun v' => ret (fst kv, v')))
                (Attributes lr) tr i (k, v) Hnth) as (tr0 & Hout).
  fold (maskAttributes mp (Attributes lr)) in Hout.
  cbn [fst snd] in Hout.
  rewrite (bind_run _ _ _ _ _ (maskAttribute_unlisted mp k _ v tr0 Hnot)) in Hout.
  destruct (maskAttributes mp (Attributes lr) tr) as [attrs tr1].
  destruct (maskBody mp (Body lr) tr1). exact Hout.
Qed.

Lemma maskLogRecord_unlisted_attribute_witness :
  nth_error
    (Attributes (fst (fst (maskLogRecord (sample_mp client_live)
       (mkLogRecord [("username", ValueStr "alice"); ("note", ValueStr "n")]
                    (ValueStr "secret")) []))))
    1
  = Some ("note", ValueStr "n").
Proof.
  apply (maskLogRecord_unlisted_attribute (sample_mp client_live)
           (mkLogRecord [("username", ValueStr "alice"); ("note", ValueStr "n")]
                        (ValueStr "secret")) [] 1 "note" (ValueStr "n") eq_refl).
  intros [H|[H|[]]]; discriminate.
Defined.

(** X13. A key listed more than once is masked more than once. With every
    read answered [redis.Nil], an attribute whose key occurs n > 0 times in
    the field list ends as the string obtained by synthesizing n times in a
    row, each time from the previous result; with n = 0 it is unchanged. *)
Theorem maskAttribute_repeats (mp : maskingProcessor) (k : string)
    (fields : list string) (v : Value) (tr : Trace) :
  reads_miss (redisClient mp) ->
  fst (maskAttribute mp k fields v tr)
  = match count_occ string_dec fields k with
    | O => v
    | S n =>
        ValueStr (Nat.iter (S n)
                    (fun s => generateMaskedValue mp s ("attribute_" ++ k))
                    (AsString v))
    end.
Proof.
  intros Hmiss. revert v tr.
  induction fields as [|f rest IH]; intros v tr; [reflexivity|].
  cbn [maskAttribute].
  destruct (k =? f)%string eqn:E.
  - apply String.eqb_eq in E. subst f.
    rewrite count_occ_cons_eq by reflexivity.
    pose proof (getMaskedValue_reads_miss mp (AsString v) ("attribute_" ++ k) tr Hmiss)
      as Hrun.
    unfold bind at 1.
    destruct (getMaskedValue mp (AsString v) ("attribute_" ++ k) tr) as [[val err] tr1].
    cbn [fst snd] in *. injection Hrun as -> ->.
    unfold bind at 1, emit. rewrite IH.
    destruct (count_occ string_dec rest k) as [|n]; [reflexivity|].
    cbn [AsString ValueStr]. f_equal.
    rewrite (Nat.iter_succ_r (S n)). reflexivity.
  - apply String.eqb_neq in E.
    rewrite count_occ_cons_neq by congruence. apply IH.
Qed.

Lemma maskAttribute_repeats_witness :
  fst (maskAttribute (sample_mp client_read_only) "username"
         ["username"; "ip_address"; "username"] (ValueStr "alice") [])
  = ValueStr (generateMaskedValue (sample_mp client_read_only)
                (generateMaskedValue (sample_mp client_read_only)
                   "alice" "attribute_username")
                "attribute_username").
Proof.
  apply (maskAttribute_repeats (sample_mp client_read_only) "username"
           ["username"; "ip_address"; "username"] (ValueStr "alice") []).
  intros history key. reflexivity.
Defined.


(** X15. A batch is processed resource by resource, in order:
    [processLogs] on two batches joined is [processLogs] on the first
    followed by [processLogs] on the second, started from the trace the
    first leaves. *)
Theorem processLogs_app (mp : maskingProcessor) (ld1 ld2 : Logs) (tr : Trace) :
  processLogs mp (ld1 ++ ld2)%list tr
  = let (r1, tr1) := processLogs mp ld1 tr in
    let (r2, tr2) := processLogs mp ld2 tr1 in
    (((fst r1 ++ fst r2)%list, None), tr2).
Proof.
  unfold processLogs, bind, ret. rewrite mapM_app.
  destruct (mapM (mapM (mapM (processLogRecord mp))) ld1 tr) as [a tr1].
  destruct (mapM (mapM (mapM (processLogRecord mp))) ld2 tr1) as [b tr2].
  reflexivity.
Qed.



Section Types.

Variable mp : maskingProcessor.

Lemma maskPatterns_app (ps1 ps2 : list compiledPattern) (text : string) (tr : Trace) :
  maskPatterns mp (ps1 ++ ps2)%list text tr
  = let (text1, tr1) := maskPatterns mp ps1 text tr in
    maskPatterns mp ps2 text1 tr1.
Proof.
  revert text tr. induction ps1 as [|p ps1 IH]; intros text tr; simpl.
  - reflexivity.
  - unfold bind. destruct (maskMatches mp p (regex p text) text tr) as [t0 tr0].
    apply IH.
Qed.

(** One round of the loop over [FieldsToMask]. *)
Lemma maskAttribute_cons (k f : string) (rest : list string) (v : Value) (tr : Trace) :
  maskAttribute mp k (f :: rest) v tr
  = if (k =? f)%string then
      let '((val, err), tr1) := getMaskedValue mp (AsString v) ("attribute_" ++ k) tr in
      match err with
      | Some e =>
          maskAttribute mp k rest v
            (tr1 ++ [EvLogError "Failed to mask attribute"
                       [zap_String "key" k; zap_Error e]])%list
      | None =>
          maskAttribute mp k rest (ValueStr val)
            (tr1 ++ [EvSetStr (AttributeValue k) val])%list
      end
    else maskAttribute mp k rest v tr.
Proof.
  cbn [maskAttribute]. destruct (k =? f)%string; [|reflexivity].
  unfold bind at 1.
  destruct (getMaskedValue mp (AsString v) ("attribute_" ++ k) tr) as [[val err] tr1].
  cbn [fst snd]. destruct err; reflexivity.
Qed.

Lemma maskAttribute_kept_or_str (k : string) (fields : list string) (v : Value)
    (tr : Trace) :
  fst (maskAttribute mp k fields v tr) = v
  \/ Type_ (fst (maskAttribute mp k fields v tr)) = ValueTypeStr.
Proof.
  revert v tr. induction fields as [|f rest IH]; intros v tr; [left; reflexivity|].
  rewrite maskAttribute_cons.
  destruct (k =? f)%string; [|apply IH].
  destruct (getMaskedValue mp (AsString v) ("attribute_" ++ k) tr) as [[val err] tr1].
  destruct err as [err|]; [apply IH|].
  match goal with
  | |- context [maskAttribute mp k rest (ValueStr val) ?t] =>
      destruct (IH (ValueStr val) t) as [H|H]
  end; right; [rewrite H; reflexivity | exact H].
Qed.

Lemma mapM_Forall2 {X Y : Type} (f : X -> M Y) (R : X -> Y -> Prop) :
  (forall a tr, R a (fst (f a tr))) ->
  forall l tr, Forall2 R l (fst (mapM f l tr)).
Proof.
  intros H l. induction l as [|a l IH]; intros tr; simpl; [constructor|].
  unfold bind, ret. specialize (H a tr).
  destruct (f a tr) as [b tr1]. specialize (IH tr1).
  destruct (mapM f l tr1) as [bs tr2]. simpl in *. constructor; assumption.
Qed.

Lemma getMaskedValue_answered (originalValue category : string) (tr : Trace) :
  reads_answered (redisClient mp) ->
  snd (fst (getMaskedValue mp originalValue category tr)) = None.
Proof.
  intros Hans.
  destruct (Hans (commands tr) (forward_key category originalValue)) as [H|H].
  - now rewrite (getMaskedValue_hit mp _ _ tr H).
  - now rewrite (getMaskedValue_miss mp _ _ tr H).
Qed.

Lemma maskAttribute_becomes_str (k : string) (fields : list string) (v : Value)
    (tr : Trace) :
  reads_answered (redisClient mp) ->
  In k fields \/ Type_ v = ValueTypeStr ->
  Type_ (fst (maskAttribute mp k fields v tr)) = ValueTypeStr.
Proof.
  intros Hans. revert v tr.
  induction fields as [|f rest IH]; intros v tr Hor.
  - destruct Hor as [[]|Hty]. exact Hty.
  - rewrite maskAttribute_cons.
    destruct (k =? f)%string eqn:E.
    + pose proof (getMaskedValue_answered (AsString v) ("attribute_" ++ k) tr Hans) as Hok.
      destruct (getMaskedValue mp (AsString v) ("attribute_" ++ k) tr) as [[val err] tr1].
      cbn [fst snd] in Hok. subst err.
      apply IH. right. reflexivity.
    + apply String.eqb_neq in E. apply IH.
      destruct Hor as [[->|Hin]|Hty]; [congruence | left; exact Hin | right; exact Hty].
Qed.

End Types.

(** X17. Patterns are applied one after the other, each to the text the
    one before it left: [maskPatternsInString] with the pattern list
    [ps1 ++ ps2] is the run with [ps1] followed by the run with [ps2] on
    its result and trace. *)
Theorem maskPatternsInString_app (cfg : Config) (client : Client)
    (ps1 ps2 : list compiledPattern) (text : string) (tr : Trace) :
  maskPatternsInString (mkMaskingProcessor cfg client (ps1 ++ ps2)%list) text tr
  = let (text1, tr1) :=
      maskPatterns (mkMaskingProcessor cfg client (ps1 ++ ps2)%list) ps1 text tr in
    maskPatterns (mkMaskingProcessor cfg client (ps1 ++ ps2)%list) ps2 text1 tr1.
Proof. unfold maskPatternsInString. cbn [compiledPatterns]. apply maskPatterns_app. Qed.

(** X18. [maskLogRecord] keeps the type of the body, and keeps every
    attribute in its place under its key, with its value either unchanged
    or replaced by a value of type Str. *)
Theorem maskLogRecord_types (mp : maskingProcessor) (lr : LogRecord) (tr : Trace) :
  Type_ (Body (fst (fst (maskLogRecord mp lr tr)))) = Type_ (Body lr)
  /\ Forall2 masked_or_kept (Attributes lr)
       (Attributes (fst (fst (maskLogRecord mp lr tr)))).
Proof.
  rewrite maskLogRecord_run.
  pose proof (mapM_Forall2
                (fun kv => bind (maskAttribute mp (fst kv) (FieldsToMask (config mp)) (snd kv))
                             (fun v' => ret (fst kv, v')))
                masked_or_kept) as HF.
  fold (maskAttributes mp) in HF.
  assert (Hattr : Forall2 masked_or_kept (Attributes lr)
                    (fst (maskAttributes mp (Attributes lr) tr))).
  { apply HF. intros [k v] tr0. unfold bind, ret. cbn [fst snd].
    pose proof (maskAttribute_kept_or_str mp k (FieldsToMask (config mp)) v tr0) as Hk.
    destruct (maskAttribute mp k (FieldsToMask (config mp)) v tr0) as [v' tr1].
    split; [reflexivity | exact Hk]. }
  destruct (maskAttributes mp (Attributes lr) tr) as [attrs tr1].
  cbn [fst] in Hattr.
  assert (Hbody : Type_ (fst (maskBody mp (Body lr) tr1)) = Type_ (Body lr)).
  { unfold maskBody.
    destruct (ValueType_eq_dec (Type_ (Body lr)) ValueTypeStr) as [Hty|Hty];
      [|reflexivity].
    unfold bind, ret, emit.
    destruct (maskPatternsInString mp (Str (Body lr)) tr1) as [masked tr2].
    destruct (string_dec masked (Str (Body lr))); [reflexivity|].
    cbn [fst ValueStr Type_]. now rewrite Hty. }
  destruct (maskBody mp (Body lr) tr1) as [body tr2].
  cbn [fst Body Attributes] in *. split; assumption.
Qed.

(** X19. When every read is answered (by a value or by [redis.Nil]), an
    attribute whose key is listed in [FieldsToMask] comes out as a value of
    type Str, whatever its type was. *)
Theorem maskAttribute_listed_becomes_str (mp : maskingProcessor) (k : string)
    (v : Value) (tr : Trace) :
  reads_answered (redisClient mp) ->
  In k (FieldsToMask (config mp)) ->
  Type_ (fst (maskAttribute mp k (FieldsToMask (config mp)) v tr)) = ValueTypeStr.
Proof.
  intros Hans Hin. apply maskAttribute_becomes_str; auto.
Qed.

Lemma maskAttribute_listed_becomes_str_witness :
  Type_ (fst (maskAttribute (sample_mp client_live) "ip_address"
                (FieldsToMask (config (sample_mp client_live)))
                (mkValue ValueTypeInt "42") []))
  = ValueTypeStr.
Proof.
  apply (maskAttribute_listed_becomes_str (sample_mp client_live) "ip_address"
           (mkValue ValueTypeInt "42") []).
  - intros history key. unfold sample_mp, client_live. cbn [redisClient].
    destruct (stored (rev history) key); [left | right]; reflexivity.
  - right. left. reflexivity.
Defined.

Section Prefixes.

Lemma pattern_prefix_as_table (patterns : list compiledPattern) (category : string) :
  pattern_prefix patterns category
  = table_prefix (map (fun p => (name p, maskedPrefix p)) patterns) category.
Proof.
  induction patterns as [|p ps IH]; simpl; [reflexivity|].
  destruct (name p =? category)%string; [reflexivity | exact IH].
Qed.

Lemma table_prefix_filter (table : list (string * string)) (category : string) :
  special_name category = false ->
  table_prefix (filter (fun np => negb (special_name (fst np))) table) category
  = table_prefix table category.
Proof.
  intros Hc. induction table as [|[n p] rest IH]; simpl; [reflexivity|].
  destruct (special_name n) eqn:En; simpl.
  - destruct (n =? category)%string eqn:E; [|exact IH].
    apply String.eqb_eq in E. subst n. congruence.
  - destruct (n =? category)%string; [reflexivity | exact IH].
Qed.

End Prefixes.

(** X20. The prefix configured for a pattern named "ipv4" or "hostname" is
    never used: two processors whose other patterns have the same names and
    prefixes, in order, synthesize the same value for every original and
    every category. *)
Theorem generateMaskedValue_special_prefix_unused (mp1 mp2 : maskingProcessor)
    (originalValue category : string) :
  effective_table mp1 = effective_table mp2 ->
  generateMaskedValue mp1 originalValue category
  = generateMaskedValue mp2 originalValue category.
Proof.
  intros Htable. unfold generateMaskedValue.
  destruct (category =? "ipv4")%string eqn:Ei; [reflexivity|].
  destruct (category =? "hostname")%string eqn:Eh; [reflexivity|].
  assert (Hc : special_name category = false).
  { unfold special_name. rewrite Ei, Eh. reflexivity. }
  rewrite !pattern_prefix_as_table.
  fold (pattern_table mp1). fold (pattern_table mp2).
  rewrite <- (table_prefix_filter (pattern_table mp1) category Hc).
  rewrite <- (table_prefix_filter (pattern_table mp2) category Hc).
  fold (effective_table mp1). fold (effective_table mp2).
  now rewrite Htable.
Qed.

Lemma generateMaskedValue_special_prefix_unused_witness :
  generateMaskedValue
    (mkMaskingProcessor createDefaultConfig client_live
       [mkCompiledPattern "ipv4" (Regexp.literal "1.2.3.4") "IP-";
        mkCompiledPattern "hostname" (Regexp.literal "web01") "HOST-"])
    "1.2.3.4" "ipv4"
  = generateMaskedValue (mkMaskingProcessor createDefaultConfig client_live [])
      "1.2.3.4" "ipv4".
Proof.
  apply generateMaskedValue_special_prefix_unused. reflexivity.
Defined.

(** * The configuration and the constructor on sample inputs *)

Example createDefaultConfig_valid :
  Validate createDefaultConfig = (createDefaultConfig, None)
  /\ token_ttl createDefaultConfig = 0%Z.
Proof. split; reflexivity. Qed.

Example Validate_negative_ttl :
  Validate (mkConfig "" "" 0 (-1) [] [])
  = (mkConfig "localhost:6379" "" 0 (-1) [] [],
     Some (NewConfigError "token_ttl must be non-negative")).
Proof. reflexivity. Qed.

Example newMaskingProcessor_default :
  match newMaskingProcessor sample_Compile client_live createDefaultConfig with
  | inl mp => pattern_table mp = [("ipv4", "IP-"); ("hostname", "HOST-")]
  | inr _ => False
  end.
Proof. reflexivity. Qed.

Example newMaskingProcessor_bad_pattern :
  match newMaskingProcessor sample_Compile client_live
          (mkConfig "" "" 0 0 []
             [mkPatternConfig "ok" "x" ""; mkPatternConfig "open" "(" "";
              mkPatternConfig "late" "(" ""]) with
  | inl _ => False
  | inr e =>
      e = Errorf_syntax "failed to compile regex pattern 'open': "
            (syntax_Error "error parsing regexp: missing closing ): `(`")
  end.
Proof. reflexivity. Qed.

(** * A failed field and the rest of its record *)

Section FailedField.

Variable mp : maskingProcessor.

Lemma maskAttribute_calls_fail (k : string) (fields : list string) (v : Value)
    (tr : Trace) :
  let key := forward_key ("attribute_" ++ k) (AsString v) in
  calls_fail (redisClient mp) (commands tr) key (count_occ string_dec fields k) ->
  exists evs,
    maskAttribute mp k fields v tr = (v, (tr ++ evs)%list)
    /\ Forall (failed_read_event key k) evs
    /\ commands evs = repeat (Get key) (count_occ string_dec fields k).
Proof.
  intros key. revert tr.
  induction fields as [|f rest IH]; intros tr Hfail.
  - exists []. cbn [maskAttribute]. unfold ret. rewrite app_nil_r.
    repeat split. constructor.
  - rewrite maskAttribute_cons. destruct (k =? f)%string eqn:E.
    + apply String.eqb_eq in E. subst f.
      rewrite count_occ_cons_eq in * by reflexivity.
      destruct (Hfail 0%nat ltac:(lia)) as (err & Herr & Hne).
      cbn [repeat] in Herr. rewrite app_nil_r in Herr.
      rewrite (getMaskedValue_fail mp (AsString v) ("attribute_" ++ k) tr err Herr Hne).
      fold key.
      match goal with
      | |- context [maskAttribute mp k rest v ?t] => destruct (IH t) as (evs & Hrun & Hall & Hcmds)
      end.
      { intros n Hn. rewrite !commands_app. cbn [commands]. rewrite app_nil_r.
        rewrite <- app_assoc. exact (Hfail (S n) ltac:(lia)). }
      rewrite Hrun. eexists. rewrite <- !app_assoc. split; [reflexivity|].
      split.
      * cbn [app]. constructor; [left; reflexivity|].
        constructor; [right; eexists; reflexivity | exact Hall].
      * cbn [app commands repeat]. now rewrite Hcmds.
    + apply String.eqb_neq in E.
      rewrite count_occ_cons_neq in * by congruence. now apply IH.
Qed.

(** A key listed once gets one call, made at the trace the attribute is
    reached with, and that call alone decides the value. *)
Lemma maskAttribute_once (k : string) (fields : list string) (v : Value) (tr : Trace) :
  count_occ string_dec fields k = 1%nat ->
  fst (maskAttribute mp k fields v tr)
  = attribute_outcome (getMaskedValue mp (AsString v) ("attribute_" ++ k) tr) v.
Proof.
  revert tr. induction fields as [|f rest IH]; intros tr Hone; [discriminate|].
  rewrite maskAttribute_cons. destruct (k =? f)%string eqn:E.
  - apply String.eqb_eq in E. subst f.
    rewrite count_occ_cons_eq in Hone by reflexivity.
    assert (Hnot : ~ In k rest) by (apply (count_occ_not_In string_dec); lia).
    unfold attribute_outcome.
    destruct (getMaskedValue mp (AsString v) ("attribute_" ++ k) tr) as [[val err] tr1].
    cbn [fst snd].
    destruct err; now rewrite (maskAttribute_unlisted mp k rest _ _ Hnot).
  - apply String.eqb_neq in E.
    rewrite count_occ_cons_neq in Hone by congruence. now apply IH.
Qed.

Lemma maskAttributes_app (l1 l2 : list (string * Value)) (tr : Trace) :
  maskAttributes mp (l1 ++ l2)%list tr
  = let (b1, tr1) := maskAttributes mp l1 tr in
    let (b2, tr2) := maskAttributes mp l2 tr1 in
    ((b1 ++ b2)%list, tr2).
Proof. unfold maskAttributes. apply mapM_app. Qed.

Lemma maskAttributes_cons (k : string) (v : Value) (l : list (string * Value))
    (tr : Trace) :
  maskAttributes mp ((k, v) :: l) tr
  = let (v', tr1) := maskAttribute mp k (FieldsToMask (config mp)) v tr in
    let (b, tr2) := maskAttributes mp l tr1 in
    ((k, v') :: b, tr2).
Proof.
  unfold maskAttributes. cbn [mapM fst snd]. unfold bind, ret.
  destruct (maskAttribute mp k (FieldsToMask (config mp)) v tr) as [v' tr1].
  destruct (mapM _ l tr1). reflexivity.
Qed.

Lemma maskAttributes_length (l : list (string * Value)) (tr : Trace) :
  List.length (fst (maskAttributes mp l tr)) = List.length l.
Proof.
  rewrite <- (length_map fst), maskAttributes_keys, length_map. reflexivity.
Qed.

Lemma maskLogRecord_attributes (lr : LogRecord) (tr : Trace) :
  Attributes (fst (fst (maskLogRecord mp lr tr)))
  = fst (maskAttributes mp (Attributes lr) tr).
Proof.
  rewrite maskLogRecord_run.
  destruct (maskAttributes mp (Attributes lr) tr) as [attrs tr1].
  destruct (maskBody mp (Body lr) tr1). reflexivity.
Qed.

Lemma maskLogRecord_string_body (lr : LogRecord) (tr : Trace) :
  Type_ (Body lr) = ValueTypeStr ->
  Str (Body (fst (fst (maskLogRecord mp lr tr))))
  = fst (maskPatternsInString mp (Str (Body lr))
           (snd (maskAttributes mp (Attributes lr) tr)))
  /\ Type_ (Body (fst (fst (maskLogRecord mp lr tr)))) = ValueTypeStr.
Proof.
  intros Hty. rewrite maskLogRecord_run.
  destruct (maskAttributes mp (Attributes lr) tr) as [attrs tr1]. cbn [snd].
  destruct (maskBody_string mp (Body lr) tr1 Hty) as (masked & evs & Hpat & _ & Hbody).
  rewrite Hbody, Hpat. cbn [fst].
  destruct (string_dec masked (Str (Body lr))) as [->|Hne]; cbn [fst Body]; auto.
Qed.

Lemma firstn_length_app {X : Type} (l1 l2 : list X) :
  firstn (List.length l1) (l1 ++ l2)%list = l1.
Proof. induction l1 as [|a l1 IH]; simpl; [reflexivity | now rewrite IH]. Qed.

Lemma maskAttributes_nth_once (attrs : list (string * Value)) (tr : Trace) (j : nat)
    (k : string) (v : Value) :
  nth_error attrs j = Some (k, v) ->
  count_occ string_dec (FieldsToMask (config mp)) k = 1%nat ->
  nth_error (fst (maskAttributes mp attrs tr)) j
  = Some (k, attribute_outcome
               (getMaskedValue mp (AsString v) ("attribute_" ++ k)
                  (snd (maskAttributes mp (firstn j attrs) tr))) v).
Proof.
  intros Hnth Hone.
  destruct (nth_error_split _ _ Hnth) as (l1 & l2 & -> & <-).
  rewrite firstn_length_app, maskAttributes_app.
  pose proof (maskAttributes_length l1 tr) as Hlen.
  destruct (maskAttributes mp l1 tr) as [b1 tr1]. cbn [fst snd] in *.
  rewrite maskAttributes_cons.
  pose proof (maskAttribute_once k (FieldsToMask (config mp)) v tr1 Hone) as Hv.
  destruct (maskAttribute mp k (FieldsToMask (config mp)) v tr1) as [v' tr2].
  destruct (maskAttributes mp l2 tr2) as [b2 tr3]. cbn [fst] in *.
  rewrite nth_error_app2 by lia. rewrite Hlen, Nat.sub_diag. cbn [nth_error].
  now rewrite Hv.
Qed.

End FailedField.

Lemma commands_In (c : Cmd) (evs : Trace) : In c (commands evs) -> In (EvRedis c) evs.
Proof.
  induction evs as [|e evs IH]; simpl; [tauto|].
  destruct e as [c'|msg fields|target val]; simpl.
  - intros [->|H]; [left; reflexivity | right; auto].
  - intros H. right. auto.
  - intros H. right. auto.
Qed.




(** The failure does not repeat: the next attribute and the body are
    masked. *)
Example maskLogRecord_first_read_fails :
  fst (maskLogRecord
         (mkMaskingProcessor sample_config client_first_read_fails sample_patterns)
         (mkLogRecord [("username", ValueStr "alice");
                       ("ip_address", ValueStr "10.0.0.1")]
                      (ValueStr "secret")) [])
  = (mkLogRecord [("username", ValueStr "alice");
                  ("ip_address", ValueStr "ip_address-61848699917d")]
                 (ValueStr "TOK-a78dd2126c3e"), None).
Proof. vm_compute. reflexivity. Qed.
